(** * roslibpy: the CLI (IronPython / .NET) transport, [roslibpy/comm/comm_cli.py]

    A shallow embedding of [CliRosBridgeProtocol] (chunked receive and send
    over one WebSocket, guarded by a [SemaphoreSlim]), of its [dispose], and
    of the readiness latch of [CliRosBridgeClientFactory].

    The .NET objects the module drives are modelled by their documented
    behaviour:
    - [SemaphoreSlim(1)] is a counter starting at 1 with the default maximum
      [Int32.MaxValue]; [Wait(token)] first throws when the token is already
      cancelled, then takes one permit, and blocks when there is none;
      [Release()] adds one permit and throws at the maximum;
    - a [Task] continuation registered with [ContinueWith] runs when the task
      completes; the scheduler that runs such chains is written here as an
      explicit driver ([continue_sending], [pump]);
    - the socket's future behaviour is data: the completions its reads will
      deliver (an inbox) and the writes it will refuse (a script).

    Every observable call is appended to a trace, so that a statement such as
    "the semaphore is not touched" is a statement about the trace. *)

From Stdlib Require Import ZArith List Bool String Lia.
From Stdlib.Strings Require Import Byte.
Import ListNotations.
Local Open Scope Z_scope.

(** ** Module constants *)

Definition RECEIVE_CHUNK_SIZE : Z := 1024.
Definition SEND_CHUNK_SIZE : Z := 1024.

(** [Int32.MaxValue], the maximum count of [SemaphoreSlim(1)]. *)
Definition Int32_MaxValue : Z := 2147483647.

(** ** Data model *)

(** [System.Net.WebSockets.WebSocketState]. *)
Inductive WebSocketState :=
| StateNone | Connecting | Open | CloseSent | CloseReceived | Closed | Aborted.

Definition WebSocketState_eqb (a b : WebSocketState) : bool :=
  match a, b with
  | StateNone, StateNone | Connecting, Connecting | Open, Open
  | CloseSent, CloseSent | CloseReceived, CloseReceived
  | Closed, Closed | Aborted, Aborted => true
  | _, _ => false
  end.

(** [System.Net.WebSockets.WebSocketMessageType]. *)
Inductive WebSocketMessageType := Text | Binary | Close.

(** The exceptions the module can raise or let through. *)
Inductive exn :=
| RosBridgeException (state : WebSocketState)
    (* 'Connection is not open. Socket state: %s' *)
| AttributeError            (* attribute access on [None] *)
| ArgumentException         (* [ArraySegment] outside its array *)
| OperationCanceledException
| SemaphoreFullException
| AggregateException        (* [.Result] of a faulted task *)
| TransportError            (* a write or read refused by the socket *)
| EncodingError             (* raised by [Encoding.UTF8.GetBytes] *)
| HandlerError.             (* raised by the message handler *)

(** The [LOGGER.exception] call sites. *)
Inductive LogSite :=
| LogReceiveChunk     (* 'Exception on receive_chunk_async, ...' *)
| LogHandler          (* '... trying to handle message received. ...' *)
| LogListening        (* 'Exception on start_listening, ...' *)
| LogSendChunk        (* 'Exception while on send_chunk_async' *)
| LogSendMessage.     (* 'Exception while sending message' *)

(** Observable calls, in the order they are made. *)
Inductive event :=
| EvWait                                   (* semaphore.Wait returned *)
| EvRelease                                (* semaphore.Release returned *)
| EvReceiveAsync                           (* socket.ReceiveAsync issued *)
| EvSendAsync (chunk : list byte) (endOfMessage : bool)
| EvCloseAsync
| EvSocketDispose
| EvTriggerDisconnect
| EvCancel
| EvMreSet
| EvOnMessage (payload : string)
| EvLogException (site : LogSite).

(** [ClientWebSocket], with what it will do: [send_script] is consumed one
    entry per [SendAsync] call, [Some e] making that call raise [e]; an
    exhausted script accepts every write. *)
Record Socket := mkSocket {
  State : WebSocketState;
  send_script : list (option exn)
}.

(** [CliEventLoopManager]: the token of [cancellation_token_source] and
    [_disconnect_event]. *)
Record Manager := mkManager {
  cancellation_requested : bool;
  disconnect_event : bool
}.

(** [CliRosBridgeProtocol]: [self.socket] (or [None]), the current count of
    [self.semaphore], [self.factory.manager], and the trace. *)
Record Protocol := mkProtocol {
  socket : option Socket;
  semaphore : Z;
  manager : Manager;
  trace : list event
}.

(** [CliRosBridgeProtocol(factory, socket)] on a new factory:
    [SemaphoreSlim(1)], nothing cancelled, nothing signalled. *)
Definition new_protocol (s : Socket) : Protocol :=
  mkProtocol (Some s) 1 (mkManager false false) [].

(** The external functions the module calls. *)
Class Runtime := {
  (** [Encoding.UTF8.GetString(buffer, 0, count)] on the bytes received. *)
  GetString : list byte -> string;
  (** [Encoding.UTF8.GetBytes(payload)]: the bytes, or an exception. *)
  GetBytes : string -> exn + list byte;
  (** [RosBridgeProtocol.on_message]: [Some e] when the handler raises. *)
  on_message : string -> option exn
}.

(** ** A state monad with exceptions and blocking *)

Inductive result (A : Type) :=
| Return (a : A)
| Raise (e : exn)
| Block          (* the thread waits on a primitive no one signals *)
| OutOfFuel.     (* the driver's bound was reached *)
Arguments Return {A} a.
Arguments Raise {A} e.
Arguments Block {A}.
Arguments OutOfFuel {A}.

Definition M (A : Type) : Type := Protocol -> result A * Protocol.

Definition ret {A} (a : A) : M A := fun st => (Return a, st).
Definition raise {A} (e : exn) : M A := fun st => (Raise e, st).
Definition block {A} : M A := fun st => (Block, st).

Definition bind {A B} (m : M A) (k : A -> M B) : M B :=
  fun st =>
    match m st with
    | (Return a, st') => k a st'
    | (Raise e, st') => (Raise e, st')
    | (Block, st') => (Block, st')
    | (OutOfFuel, st') => (OutOfFuel, st')
    end.

Notation "x <- m ;; k" := (bind m (fun x => k))
  (at level 61, m at next level, right associativity).
Notation "m ;;; k" := (bind m (fun _ => k))
  (at level 61, right associativity).

Definition emit (e : event) : M unit :=
  fun st => (Return tt,
             mkProtocol (socket st) (semaphore st) (manager st) (trace st ++ [e])).

Definition get_socket : M (option Socket) := fun st => (Return (socket st), st).

(** [self.socket.<attr>]: [AttributeError] when [self.socket] is [None]. *)
Definition socket_attr : M Socket :=
  s <- get_socket ;;
  match s with
  | Some s => ret s
  | None => raise AttributeError
  end.

(** [try: m except Exception: LOGGER.exception(site); raise]. *)
Definition try_log {A} (site : LogSite) (m : M A) : M A :=
  fun st =>
    match m st with
    | (Raise e, st') => (emit (EvLogException site) ;;; raise e) st'
    | r => r
    end.

(** ** SemaphoreSlim *)

(** [self.semaphore.Wait(self.factory.manager.cancellation_token)]. *)
Definition semaphore_Wait : M unit :=
  fun st =>
    if cancellation_requested (manager st) then (Raise OperationCanceledException, st)
    else if 0 <? semaphore st then
      (Return tt,
       mkProtocol (socket st) (semaphore st - 1) (manager st) (trace st ++ [EvWait]))
    else (Block, st).

(** [self.semaphore.Release()]. *)
Definition semaphore_Release : M unit :=
  fun st =>
    if Int32_MaxValue <=? semaphore st then (Raise SemaphoreFullException, st)
    else
      (Return tt,
       mkProtocol (socket st) (semaphore st + 1) (manager st) (trace st ++ [EvRelease])).

(** ** Sending *)

(** [ArraySegment[Byte](array, offset, count)]: the constructor refuses a
    segment that is not inside the array. *)
Definition ArraySegment (array : list byte) (offset count : Z) : M (list byte) :=
  if (0 <=? offset) && (0 <=? count) && (count <=? Z.of_nat (List.length array) - offset)
  then ret (firstn (Z.to_nat count) (skipn (Z.to_nat offset) array))
  else raise ArgumentException.

(** [self.socket.SendAsync(chunk, Text, is_last, token)]. *)
Definition socket_SendAsync (chunk : list byte) (endOfMessage : bool) : M unit :=
  s <- socket_attr ;;
  match send_script s with
  | Some e :: rest =>
      (fun st => (Raise e,
         mkProtocol (Some (mkSocket (State s) rest)) (semaphore st) (manager st) (trace st)))
  | None :: rest =>
      (fun st => (Return tt,
         mkProtocol (Some (mkSocket (State s) rest)) (semaphore st) (manager st) (trace st))) ;;;
      emit (EvSendAsync chunk endOfMessage)
  | [] => emit (EvSendAsync chunk endOfMessage)
  end.

(** [message_data]: [[message_buffer, message_length, chunks_count, i]]. *)
Definition message_data : Type := list byte * Z * Z * Z.

(** What a call of [send_chunk_async] leaves behind: a continuation
    registered on the write task, or nothing more to do. *)
Inductive SendStatus :=
| SendScheduled (next : message_data)
| SendCompleted.

Definition send_chunk_async (data : message_data) : M SendStatus :=
  try_log LogSendChunk (
    let '(message_buffer, message_length, chunks_count, i) := data in
    let offset := SEND_CHUNK_SIZE * i in
    let is_last_message := (i =? chunks_count - 1) in
    let count := if is_last_message then message_length - offset else SEND_CHUNK_SIZE in
    message_chunk <- ArraySegment message_buffer offset count ;;
    socket_SendAsync message_chunk is_last_message ;;;
    if negb is_last_message then
      ret (SendScheduled (message_buffer, message_length, chunks_count, i + 1))
    else
      semaphore_Release ;;; ret SendCompleted).

(** [int(math.ceil(float(a) / b))].  A .NET array is shorter than [2^31], so
    [float(a)] is exact, and so is a division by 1024. *)
Definition ceil_div (a b : Z) : Z :=
  if a mod b =? 0 then a / b else a / b + 1.

Definition send_message `{Runtime} (payload : string) : M SendStatus :=
  s <- socket_attr ;;
  if negb (WebSocketState_eqb (State s) Open) then
    raise (RosBridgeException (State s))
  else
    try_log LogSendMessage (
      semaphore_Wait ;;;
      match GetBytes payload with
      | inl e => raise e
      | inr message_buffer =>
          let message_length := Z.of_nat (List.length message_buffer) in
          let chunks_count := ceil_div message_length SEND_CHUNK_SIZE in
          send_chunk_async (message_buffer, message_length, chunks_count, 0)
      end).

(** The continuations registered by [task.ContinueWith(self.send_chunk_async,
    ...)], run one after the other. *)
Fixpoint continue_sending (fuel : nat) (status : SendStatus) : M unit :=
  match status with
  | SendCompleted => ret tt
  | SendScheduled data =>
      match fuel with
      | O => fun st => (OutOfFuel, st)
      | S fuel' => status' <- send_chunk_async data ;; continue_sending fuel' status'
      end
  end.

(** Every non-final chunk takes 1024 bytes of the buffer, so the buffer's
    length bounds the chain. *)
Definition send_fuel (status : SendStatus) : nat :=
  match status with
  | SendScheduled (message_buffer, _, _, _) => S (List.length message_buffer)
  | SendCompleted => O
  end.

(** [send_message] followed by its whole continuation chain. *)
Definition send_message_run `{Runtime} (payload : string) : M unit :=
  status <- send_message payload ;;
  continue_sending (send_fuel status) status.

(** ** Disposal *)

(** [CliEventLoopManager.trigger_disconnect]: [_disconnect_event.Set()]. *)
Definition trigger_disconnect : M unit :=
  fun st =>
    (Return tt,
     mkProtocol (socket st) (semaphore st)
       (mkManager (cancellation_requested (manager st)) true)
       (trace st ++ [EvTriggerDisconnect])).

(** [cancellation_token_source.Cancel()]. *)
Definition token_source_Cancel : M unit :=
  fun st =>
    (Return tt,
     mkProtocol (socket st) (semaphore st)
       (mkManager true (disconnect_event (manager st)))
       (trace st ++ [EvCancel])).

Definition set_socket (s : option Socket) : M unit :=
  fun st => (Return tt, mkProtocol s (semaphore st) (manager st) (trace st)).

(** [dispose].  [cancellation_token_source] is set by the manager's
    constructor and never cleared, so its test always passes. *)
Definition dispose : M unit :=
  trigger_disconnect ;;;
  token_source_Cancel ;;;
  s <- get_socket ;;
  match s with
  | Some _ => emit EvSocketDispose ;;; set_socket None
  | None => ret tt
  end.

(** [send_close].  The continuation [close_task.ContinueWith(self.dispose)]
    is run at once: the close handshake is taken to complete. *)
Definition send_close : M unit :=
  s <- get_socket ;;
  match s with
  | Some _ => emit EvCloseAsync ;;; dispose
  | None => ret tt
  end.

(** ** Receiving *)

(** [WebSocketReceiveResult]; [received] is the first [Count] bytes of the
    buffer. *)
Record WebSocketReceiveResult := mkResult {
  received : list byte;
  EndOfMessage : bool;
  MessageType : WebSocketMessageType
}.

(** A finished [Task[WebSocketReceiveResult]]. *)
Inductive Task :=
| RanToCompletion (result : WebSocketReceiveResult)
| Faulted.

(** [task_result.Result]. *)
Definition task_Result (task : Task) : M WebSocketReceiveResult :=
  match task with
  | RanToCompletion result => ret result
  | Faulted => raise AggregateException
  end.

(** The [context] dict: [content] and whether [mre] is set (the buffer is
    carried by the results). *)
Record Context := mkContext {
  content : list string;
  mre : bool
}.

(** [self.socket.ReceiveAsync(...)] and the registration of the
    continuation. *)
Definition socket_ReceiveAsync : M unit :=
  socket_attr ;;; emit EvReceiveAsync.

Inductive ReceiveStatus :=
| ReceiveScheduled (context : Context)   (* the next read is pending *)
| ReceiveCompleted (context : Context)   (* [return task_result]: mre set *)
| ReceiveClosed.                         (* [return self.send_close()] *)

Definition receive_chunk_async `{Runtime}
    (task_result : option Task) (context : Context) : M ReceiveStatus :=
  try_log LogReceiveChunk (
    status <-
      match task_result with
      | Some task =>
          result <- task_Result task ;;
          (if negb (EndOfMessage result) then semaphore_Wait else ret tt) ;;;
          match MessageType result with
          | Close => send_close ;;; ret ReceiveClosed
          | _ =>
              let chunk := GetString (received result) in
              let context := mkContext (content context ++ [chunk]) (mre context) in
              if EndOfMessage result then
                semaphore_Release ;;;
                emit EvMreSet ;;;
                ret (ReceiveCompleted (mkContext (content context) true))
              else ret (ReceiveScheduled context)
          end
      | None => ret (ReceiveScheduled context)
      end ;;
    match status with
    | ReceiveScheduled context => socket_ReceiveAsync ;;; ret status
    | _ => ret status
    end).

(** The continuation chain of one message: each completion of the inbox is
    handed to [receive_chunk_async]; with the inbox exhausted the pending
    read never completes. *)
Fixpoint pump `{Runtime} (inbox : list Task) (context : Context)
    : M (Context * list Task) :=
  match inbox with
  | [] => ret (context, [])
  | task :: inbox' =>
      status <- receive_chunk_async (Some task) context ;;
      match status with
      | ReceiveScheduled context' => pump inbox' context'
      | ReceiveCompleted context' => ret (context', inbox')
      | ReceiveClosed => ret (context, inbox')
      end
  end.

(** [mre.Wait(token)]: throws on a cancelled token, else waits for [Set]. *)
Definition mre_Wait (context : Context) : M unit :=
  fun st =>
    if cancellation_requested (manager st) then (Raise OperationCanceledException, st)
    else if mre context then (Return tt, st)
    else (Block, st).

(** [self.socket and self.socket.State == WebSocketState.Open]. *)
Definition socket_is_open : M bool :=
  s <- get_socket ;;
  ret match s with
      | Some s => WebSocketState_eqb (State s) Open
      | None => false
      end.

(** The inner [try] of the loop: the handler's exception is logged, not
    raised again. *)
Definition dispatch `{Runtime} (content : list string) : M unit :=
  let message_payload := String.concat "" content in
  emit (EvOnMessage message_payload) ;;;
  match on_message message_payload with
  | Some _ => emit (EvLogException LogHandler)
  | None => ret tt
  end.

(** Continuations run on pool threads: one that raises or blocks there is
    not seen by the listening thread, which only finds [mre] unset. *)
Definition on_pool {A} (m : M A) (unfinished : A) : M A :=
  fun st =>
    match m st with
    | (Raise _, st') | (Block, st') => (Return unfinished, st')
    | r => r
    end.

(** The [while] loop of [start_listening]. *)
Fixpoint listening_loop `{Runtime} (fuel : nat) (inbox : list Task) : M unit :=
  open <- socket_is_open ;;
  if open then
    match fuel with
    | O => fun st => (OutOfFuel, st)
    | S fuel' =>
        let context := mkContext [] false in
        status <- receive_chunk_async None context ;;
        pumped <- on_pool
                    match status with
                    | ReceiveScheduled context' => pump inbox context'
                    | _ => ret (context, inbox)
                    end (context, []) ;;
        mre_Wait (fst pumped) ;;;
        dispatch (content (fst pumped)) ;;;
        listening_loop fuel' (snd pumped)
    end
  else ret tt.

(** [start_listening]; its first statement logs [self.socket.State].  Every
    turn of the loop that comes back consumes a completion, so the length of
    the inbox bounds the loop. *)
Definition start_listening `{Runtime} (inbox : list Task) : M unit :=
  try_log LogListening (
    socket_attr ;;;
    listening_loop (S (List.length inbox)) inbox).

(** ** Reading a trace *)

Definition is_Wait (e : event) : bool :=
  match e with EvWait => true | _ => false end.
Definition is_Release (e : event) : bool :=
  match e with EvRelease => true | _ => false end.
Definition is_TriggerDisconnect (e : event) : bool :=
  match e with EvTriggerDisconnect => true | _ => false end.
Definition is_SocketDispose (e : event) : bool :=
  match e with EvSocketDispose => true | _ => false end.
Definition is_handler_log (e : event) : bool :=
  match e with EvLogException LogHandler => true | _ => false end.

Definition waits (t : list event) : nat := List.length (filter is_Wait t).
Definition releases (t : list event) : nat := List.length (filter is_Release t).

(** The texts handed to [on_message], in order. *)
Fixpoint on_message_calls (t : list event) : list string :=
  match t with
  | [] => []
  | EvOnMessage payload :: t' => payload :: on_message_calls t'
  | _ :: t' => on_message_calls t'
  end.

(** The writes issued, in order. *)
Fixpoint writes (t : list event) : list (list byte * bool) :=
  match t with
  | [] => []
  | EvSendAsync chunk endOfMessage :: t' => (chunk, endOfMessage) :: writes t'
  | _ :: t' => writes t'
  end.

(** The events of [t'] after its first [length t] ones. *)
Definition since (t t' : list event) : list event := skipn (List.length t) t'.

(** A runtime for examples: payloads are ASCII, decoded and encoded byte by
    byte; the handler raises on the text [boom]. *)
Definition ascii_runtime : Runtime := {|
  GetString := string_of_list_byte;
  GetBytes := fun payload => inr (list_byte_of_string payload);
  on_message := fun payload => if String.eqb payload "boom" then Some HandlerError else None
|}.

Definition text_frame (data : list byte) (final : bool) : Task :=
  RanToCompletion (mkResult data final Text).

Definition open_socket : Socket := mkSocket Open [].

(** ** The readiness latch of [CliRosBridgeClientFactory] *)

Module Factory.

(** Callables and protocol instances, by identity. *)
Definition Callback : Type := nat.
Definition ProtocolRef : Type := nat.

(** [self.proto], the one-time listeners held by the event emitter, in
    the order they were registered, and the callback invocations made so
    far. *)
Record CliRosBridgeClientFactory := mkFactory {
  proto : option ProtocolRef;
  listeners : list (string * Callback);
  calls : list (Callback * ProtocolRef)
}.

(** [CliRosBridgeClientFactory(url)]: [self.proto = None]. *)
Definition new_factory : CliRosBridgeClientFactory := mkFactory None [] [].

(** Modelled from the spec: [EventEmitterMixin.once], of
    [roslibpy/event_emitter.py], is not among the sources; the spec gives
    a registration "for one-time delivery when readiness occurs". *)
Definition once (event : string) (callback : Callback)
    (f : CliRosBridgeClientFactory) : CliRosBridgeClientFactory :=
  mkFactory (proto f) (listeners f ++ [(event, callback)]) (calls f).

(** Modelled from the spec: [EventEmitterMixin.emit], of
    [roslibpy/event_emitter.py], is not among the sources; the spec gives
    "at-most-once, immediate-or-deferred delivery": every listener
    registered for the event is invoked with the argument, in
    registration order, and a one-time listener is forgotten by it. *)
Definition emit (event : string) (arg : ProtocolRef)
    (f : CliRosBridgeClientFactory) : CliRosBridgeClientFactory :=
  let due := filter (fun l => String.eqb (fst l) event) (listeners f) in
  mkFactory (proto f)
    (filter (fun l => negb (String.eqb (fst l) event)) (listeners f))
    (calls f ++ map (fun l => (snd l, arg)) due).

Definition ready (p : ProtocolRef)
    (f : CliRosBridgeClientFactory) : CliRosBridgeClientFactory :=
  emit "ready" p (mkFactory (Some p) (listeners f) (calls f)).

Definition on_ready (callback : Callback)
    (f : CliRosBridgeClientFactory) : CliRosBridgeClientFactory :=
  match proto f with
  | Some p => mkFactory (proto f) (listeners f) (calls f ++ [(callback, p)])
  | None => once "ready" callback f
  end.

(** What callers do with a factory. *)
Inductive operation :=
| OnReady (callback : Callback)
| Ready (p : ProtocolRef).

Definition step (f : CliRosBridgeClientFactory) (op : operation)
    : CliRosBridgeClientFactory :=
  match op with
  | OnReady callback => on_ready callback f
  | Ready p => ready p f
  end.

Definition run (ops : list operation) : CliRosBridgeClientFactory :=
  fold_left step ops new_factory.

(** The callbacks passed to [on_ready], in order. *)
Definition registrations (ops : list operation) : list Callback :=
  flat_map (fun op => match op with OnReady c => [c] | Ready _ => [] end) ops.

End Factory.

(** ** Predicates on states and traces *)

(** The lock is where it was: same count, same numbers of [Wait] and
    [Release] calls. *)
Definition lock_untouched (st st' : Protocol) : Prop :=
  semaphore st' = semaphore st
  /\ waits (trace st') = waits (trace st)
  /\ releases (trace st') = releases (trace st).

(** The lock was released once more, and that was the last call made. *)
Definition lock_released (st st' : Protocol) : Prop :=
  semaphore st' = semaphore st + 1
  /\ waits (trace st') = waits (trace st)
  /\ releases (trace st') = (releases (trace st) + 1)%nat
  /\ exists t chunk, trace st' = t ++ [EvSendAsync chunk true; EvRelease].

(** A socket that refuses no write. *)
Definition accepting (s : Socket) : bool :=
  forallb (fun o => match o with None => true | Some _ => false end) (send_script s).

(** The writes of chunk [i] and of the [k] chunks after it, the last of
    them final, as [send_chunk_async] cuts them out of [buf]. *)
Fixpoint chunks (buf : list byte) (k : nat) (i : Z) : list (list byte * bool) :=
  let offset := Z.to_nat (SEND_CHUNK_SIZE * i) in
  match k with
  | O =>
      [(firstn (Z.to_nat (Z.of_nat (List.length buf) - SEND_CHUNK_SIZE * i))
          (skipn offset buf), true)]
  | S k' =>
      (firstn (Z.to_nat SEND_CHUNK_SIZE) (skipn offset buf), false)
      :: chunks buf k' (i + 1)
  end.

Definition write_event (w : list byte * bool) : event := EvSendAsync (fst w) (snd w).

Definition write_sizes (ws : list (list byte * bool)) : list Z :=
  map (fun w => Z.of_nat (List.length (fst w))) ws.

Definition write_flags (ws : list (list byte * bool)) : list bool := map snd ws.

(** The same runtime with a handler that never raises. *)
Definition quiet (R : Runtime) : Runtime := {|
  GetString := @GetString R;
  GetBytes := @GetBytes R;
  on_message := fun _ => None
|}.

Definition without_handler_logs (t : list event) : list event :=
  filter (fun e => negb (is_handler_log e)) t.

(** Two protocol states that differ at most by the handler's log lines. *)
Definition similar (st st' : Protocol) : Prop :=
  socket st = socket st'
  /\ semaphore st = semaphore st'
  /\ manager st = manager st'
  /\ without_handler_logs (trace st) = without_handler_logs (trace st').

(** Two computations that, from similar states, end the same way in
    similar states. *)
Definition respects {A} (m m' : M A) : Prop :=
  forall st st', similar st st' ->
    fst (m st) = fst (m' st') /\ similar (snd (m st)) (snd (m' st')).

(** A computation that never runs out of fuel. *)
Definition total {A} (m : M A) : Prop :=
  forall st, fst (m st) <> OutOfFuel.

(** The claim C6 as it is written: the calls a second [dispose] makes
    include neither the socket's [Dispose] nor [trigger_disconnect]. *)
Definition second_dispose_makes_no_call (st : Protocol) : Prop :=
  let st1 := snd (dispose st) in
  let st2 := snd (dispose st1) in
  filter (fun e => is_SocketDispose e || is_TriggerDisconnect e)
         (since (trace st1) (trace st2)) = [].

(** The claim C3 as it is written: a send that took the lock has given it
    back when it is over, however it ended. *)
Definition send_releases_what_it_acquired `{Runtime}
    (payload : string) (st : Protocol) : Prop :=
  let st' := snd (send_message_run payload st) in
  (releases (since (trace st) (trace st')) = waits (since (trace st) (trace st')))%nat.

(** ** The event loop manager and the connection test *)

(** [CliEventLoopManager.run_forever]: [_disconnect_event.Wait(token)],
    which throws on a cancelled token, else waits for [Set]. *)
Definition run_forever : M unit :=
  fun st =>
    if cancellation_requested (manager st) then (Raise OperationCanceledException, st)
    else if disconnect_event (manager st) then (Return tt, st)
    else (Block, st).

(** What a Python expression of [is_connected] can evaluate to. *)
Inductive PyValue :=
| PyNone
| PyBool (b : bool).

(** [CliRosBridgeClientFactory.is_connected]:
    [self.proto and self.proto.socket and self.proto.socket.State == Open];
    an [and] chain yields its first falsy operand. *)
Definition is_connected (proto : option Protocol) : PyValue :=
  match proto with
  | None => PyNone
  | Some p =>
      match socket p with
      | None => PyNone
      | Some s => PyBool (WebSocketState_eqb (State s) Open)
      end
  end.

(** ** Shapes of inbound results and of write scripts *)

(** A result that carries data (text or binary, not a close frame) and is
    final or not as [final] says. *)
Definition data_result (final : bool) (r : WebSocketReceiveResult) : bool :=
  Bool.eqb (EndOfMessage r) final
  && match MessageType r with
     | Close => false
     | _ => true
     end.

(** The chunk texts of a list of results, decoded one by one. *)
Definition decoded `{Runtime} (rs : list WebSocketReceiveResult) : list string :=
  map (fun r => GetString (received r)) rs.

(** The calls one more non-final chunk adds to the trace. *)
Definition nonfinal_events (rs : list WebSocketReceiveResult) : list event :=
  flat_map (fun _ => [EvWait; EvReceiveAsync]) rs.

(** The first refusal among the next [n] writes of a script: its position
    and its exception. *)
Fixpoint refusal (script : list (option exn)) (n : nat) {struct n}
    : option (nat * exn) :=
  match n, script with
  | O, _ => None
  | S _, [] => None
  | S _, Some e :: _ => Some (O, e)
  | S n', None :: script' =>
      match refusal script' n' with
      | Some (j, e) => Some (S j, e)
      | None => None
      end
  end.

(** A send changes neither the manager nor the state of the socket. *)
Definition connection_kept (st st' : Protocol) : Prop :=
  manager st' = manager st
  /\ option_map State (socket st') = option_map State (socket st).

(** ** What an operation may add to the trace *)

(** Every call the computation makes, from any state, satisfies [allowed];
    the trace it found is kept as it was. *)
Definition adds_only (allowed : event -> bool) {A} (m : M A) : Prop :=
  forall st, exists calls,
    trace (snd (m st)) = trace st ++ calls /\ forallb allowed calls = true.

(** The calls of the send path: the lock, the writes, the two log lines. *)
Definition send_call (e : event) : bool :=
  match e with
  | EvWait | EvRelease | EvSendAsync _ _
  | EvLogException LogSendChunk | EvLogException LogSendMessage => true
  | _ => false
  end.

(** The calls of a receive chain: the lock, the reads, the completion
    signal, the close handshake with the disposal it triggers, and the
    chain's log line. *)
Definition pump_call (e : event) : bool :=
  match e with
  | EvWait | EvRelease | EvReceiveAsync | EvMreSet
  | EvCloseAsync | EvTriggerDisconnect | EvCancel | EvSocketDispose
  | EvLogException LogReceiveChunk => true
  | _ => false
  end.

(** The calls of the listening side: anything but a write. *)
Definition listen_call (e : event) : bool :=
  match e with
  | EvSendAsync _ _ => false
  | _ => true
  end.

(** ** From one peer's writes to the other's reads *)

(** A transport that hands each text write of one peer to the other as one
    read: the same bytes, final when the write was. *)
Definition frames_of_writes (ws : list (list byte * bool)) : list Task :=
  map (fun w => text_frame (fst w) (snd w)) ws.

(** * Properties *)

(** ** Counting on traces *)

Lemma waits_app (t u : list event) : waits (t ++ u) = (waits t + waits u)%nat.
Proof. unfold waits. now rewrite filter_app, length_app. Qed.

Lemma releases_app (t u : list event) :
  releases (t ++ u) = (releases t + releases u)%nat.
Proof. unfold releases. now rewrite filter_app, length_app. Qed.

Lemma since_app (t u : list event) : since t (t ++ u) = u.
Proof.
  unfold since. induction t as [|e t IH]; simpl; auto.
Qed.

Lemma since_refl (t : list event) : since t t = [].
Proof.
  rewrite <- (app_nil_r t) at 2. apply since_app.
Qed.

Lemma WebSocketState_eqb_eq (a b : WebSocketState) :
  WebSocketState_eqb a b = true <-> a = b.
Proof. destruct a, b; simpl; split; congruence. Qed.

(** ** [send_message] on a socket that is not open *)

(** C4: with a socket whose state is not [Open], [send_message] raises the
    "not open" [RosBridgeException] at once and leaves the protocol in the
    very state it was in: the semaphore's count is unchanged and no call on
    it (nor any other call) was added to the trace; nothing is scheduled, so
    the same holds of the whole send. *)
Theorem send_message_not_open `{Runtime} (payload : string) (st : Protocol) (s : Socket) :
  socket st = Some s ->
  State s <> Open ->
  send_message payload st = (Raise (RosBridgeException (State s)), st)
  /\ send_message_run payload st = (Raise (RosBridgeException (State s)), st)
  /\ since (trace st) (trace (snd (send_message_run payload st))) = [].
Proof.
  intros Hs Hopen.
  assert (E : WebSocketState_eqb (State s) Open = false).
  { destruct (WebSocketState_eqb (State s) Open) eqn:E; auto.
    apply WebSocketState_eqb_eq in E. contradiction. }
  assert (E1 : send_message payload st = (Raise (RosBridgeException (State s)), st)).
  { unfold send_message, socket_attr, get_socket, bind, ret, raise.
    rewrite Hs, E. reflexivity. }
  assert (E2 : send_message_run payload st = (Raise (RosBridgeException (State s)), st)).
  { unfold send_message_run, bind. rewrite E1. reflexivity. }
  repeat split; auto.
  rewrite E2. apply since_refl.
Qed.

Lemma send_message_not_open_witness :
  @send_message ascii_runtime "abc" (new_protocol (mkSocket Closed []))
  = (Raise (RosBridgeException Closed), new_protocol (mkSocket Closed [])).
Proof.
  apply (@send_message_not_open ascii_runtime "abc"
           (new_protocol (mkSocket Closed [])) (mkSocket Closed [])).
  - reflexivity.
  - simpl. discriminate.
Defined.

(** ** The empty payload *)

(** C10: for a payload that encodes to no byte, on an open socket with the
    lock free, the chunk count is 0, so chunk 0 is not the last one
    ([0 = 0 - 1] is false) and asks for the segment of 1024 bytes at
    offset 0 of the empty buffer, which [ArraySegment] refuses; the send
    aborts with that exception, no write is issued, and the permit taken by
    [send_message] is not given back: one [Wait], no [Release], the count
    one lower than before. *)
Theorem send_message_empty_payload `{Runtime} (payload : string) (st : Protocol) (s : Socket) :
  socket st = Some s ->
  State s = Open ->
  cancellation_requested (manager st) = false ->
  0 < semaphore st ->
  GetBytes payload = inr [] ->
  ceil_div 0 SEND_CHUNK_SIZE = 0
  /\ (0 =? ceil_div 0 SEND_CHUNK_SIZE - 1) = false
  /\ (forall st0, ArraySegment [] (SEND_CHUNK_SIZE * 0) SEND_CHUNK_SIZE st0
                  = (Raise ArgumentException, st0))
  /\ exists st',
       send_message_run payload st = (Raise ArgumentException, st')
       /\ trace st' = trace st ++ [EvWait; EvLogException LogSendChunk;
                                   EvLogException LogSendMessage]
       /\ semaphore st' = semaphore st - 1
       /\ releases (trace st') = releases (trace st)
       /\ writes (since (trace st) (trace st')) = [].
Proof.
  intros Hs Hopen Hc Hsem Hb.
  split; [reflexivity|]. split; [reflexivity|]. split; [reflexivity|].
  unfold send_message_run, send_message, socket_attr, get_socket, bind, ret, raise,
    try_log, semaphore_Wait.
  rewrite Hs, Hopen. simpl.
  rewrite Hc. apply Z.ltb_lt in Hsem. rewrite Hsem. rewrite Hb. simpl.
  eexists. split; [reflexivity|]. simpl.
  rewrite <- !app_assoc. simpl.
  repeat split.
  - rewrite releases_app. unfold releases. simpl. lia.
  - rewrite since_app. reflexivity.
Qed.

Lemma send_message_empty_payload_witness :
  exists st',
    @send_message_run ascii_runtime "" (new_protocol open_socket)
    = (Raise ArgumentException, st')
    /\ semaphore st' = 0.
Proof.
  destruct (@send_message_empty_payload ascii_runtime "" (new_protocol open_socket)
              open_socket eq_refl eq_refl eq_refl ltac:(reflexivity) eq_refl)
    as (_ & _ & _ & st' & Hrun & _ & Hsem & _).
  exists st'. split; [exact Hrun | exact Hsem].
Defined.

(** ** [dispose] *)

Lemma dispose_returns (st : Protocol) : fst (dispose st) = Return tt.
Proof.
  unfold dispose, trigger_disconnect, token_source_Cancel, get_socket, bind.
  simpl. destruct (socket st); reflexivity.
Qed.

Lemma dispose_clears_socket (st : Protocol) : socket (snd (dispose st)) = None.
Proof.
  unfold dispose, trigger_disconnect, token_source_Cancel, get_socket, bind.
  simpl. destruct (socket st) eqn:E; simpl; auto.
Qed.

Lemma dispose_cancels (st : Protocol) :
  manager (snd (dispose st)) = mkManager true true.
Proof.
  unfold dispose, trigger_disconnect, token_source_Cancel, get_socket, bind.
  simpl. destruct (socket st); reflexivity.
Qed.

(** What a call of [dispose] on a protocol without socket does. *)
Lemma dispose_without_socket (st : Protocol) :
  socket st = None ->
  dispose st =
  (Return tt,
   mkProtocol None (semaphore st) (mkManager true true)
     (trace st ++ [EvTriggerDisconnect; EvCancel])).
Proof.
  intros Hs.
  unfold dispose, trigger_disconnect, token_source_Cancel, get_socket, bind, ret.
  simpl. rewrite Hs. rewrite <- app_assoc. reflexivity.
Qed.

(** C6, as written, fails on a new protocol: the second [dispose] calls
    [trigger_disconnect] again. *)
Lemma second_dispose_signals_again :
  ~ second_dispose_makes_no_call (new_protocol open_socket).
Proof.
  unfold second_dispose_makes_no_call. vm_compute. discriminate.
Qed.

(** C6, amended: a second or later [dispose] releases nothing and changes
    nothing: it does not call the socket's [Dispose] again, and the socket
    field, the semaphore and the manager (disconnect event set, token
    cancelled) are as the first call left them; the calls it makes are
    [trigger_disconnect] and [Cancel], on an event already set and a token
    already cancelled. *)
Theorem dispose_twice (st : Protocol) :
  let st1 := snd (dispose st) in
  let st2 := snd (dispose st1) in
  fst (dispose st1) = Return tt
  /\ socket st2 = socket st1
  /\ semaphore st2 = semaphore st1
  /\ manager st2 = manager st1
  /\ since (trace st1) (trace st2) = [EvTriggerDisconnect; EvCancel]
  /\ filter is_SocketDispose (since (trace st1) (trace st2)) = [].
Proof.
  intros st1 st2. subst st2.
  pose proof (dispose_clears_socket st) as Hs. fold st1 in Hs.
  pose proof (dispose_cancels st) as Hm. fold st1 in Hm.
  rewrite (dispose_without_socket st1 Hs). simpl.
  rewrite since_app. rewrite Hs, Hm. repeat split.
Qed.

(** ** Operations after [dispose] *)

(** C7 (the code departs from it): on a disposed protocol [self.socket] is
    [None], and [send_message] reads [self.socket.State] before anything
    else: it raises [AttributeError], not the "not open"
    [RosBridgeException], whatever the payload and the earlier state.
    [start_listening] does the same in its first statement. *)
Theorem send_message_after_dispose `{Runtime} (payload : string) (st : Protocol) :
  let st1 := snd (dispose st) in
  send_message payload st1 = (Raise AttributeError, st1)
  /\ send_message_run payload st1 = (Raise AttributeError, st1)
  /\ (forall state, AttributeError <> RosBridgeException state)
  /\ forall inbox, fst (start_listening inbox st1) = Raise AttributeError.
Proof.
  intros st1.
  pose proof (dispose_clears_socket st) as Hs. fold st1 in Hs.
  assert (E : send_message payload st1 = (Raise AttributeError, st1)).
  { unfold send_message, socket_attr, get_socket, bind, raise. rewrite Hs. reflexivity. }
  repeat split.
  - exact E.
  - unfold send_message_run, bind. rewrite E. reflexivity.
  - discriminate.
  - intros inbox. unfold start_listening, try_log, socket_attr, get_socket, bind, raise.
    rewrite Hs. reflexivity.
Qed.

(** ** The lock on the receive path *)

(** C1 (the code departs from it): on a new protocol, whose semaphore holds
    its single permit, a message that arrives as one final text chunk makes
    [receive_chunk_async] call [Release] with no [Wait] before it: the chunk
    is completed, and the count is 2.  A message in three chunks takes its
    [Wait] twice for one [Release]: with two permits at hand it ends one
    permit down. *)
Theorem receive_single_chunk_over_releases `{Runtime}
    (s : Socket) (data d1 d2 d3 : list byte) (context : Context) :
  (exists context' st',
     pump [text_frame data true] context (new_protocol s)
     = (Return (context', []), st')
     /\ trace st' = [EvRelease; EvMreSet]
     /\ waits (trace st') = 0%nat
     /\ releases (trace st') = 1%nat
     /\ semaphore st' = 2)
  /\ (exists context' st',
     pump [text_frame d1 false; text_frame d2 false; text_frame d3 true] context
       (mkProtocol (Some s) 2 (mkManager false false) [])
     = (Return (context', []), st')
     /\ waits (trace st') = 2%nat
     /\ releases (trace st') = 1%nat
     /\ semaphore st' = 1).
Proof.
  split; do 2 eexists; (split; [reflexivity|]); simpl; repeat split.
Qed.

(** C2 (the code departs from it): on a new protocol with an open socket, a
    message delivered as three text chunks flagged not-final, not-final,
    final is never handed to the handler.  The first chunk takes the only
    permit; the continuation for the second chunk blocks in [Wait]; the
    completion signal is never set and the listening loop stays in
    [mre.Wait].  No [on_message] call is made and the third chunk is never
    read. *)
Theorem three_chunks_block_on_new_protocol `{Runtime}
    (script : list (option exn)) (d1 d2 d3 : list byte) :
  let inbox := [text_frame d1 false; text_frame d2 false; text_frame d3 true] in
  let st := new_protocol (mkSocket Open script) in
  fst (start_listening inbox st) = Block
  /\ on_message_calls (trace (snd (start_listening inbox st))) = []
  /\ trace (snd (start_listening inbox st)) = [EvReceiveAsync; EvWait; EvReceiveAsync]
  /\ semaphore (snd (start_listening inbox st)) = 0.
Proof.
  repeat split.
Qed.

(** With two permits at hand the same three chunks are reassembled and
    handed to the handler once, as their concatenation; the loop then waits
    for the next message. *)
Lemma three_chunks_dispatched_with_two_permits `{Runtime}
    (script : list (option exn)) (d1 d2 d3 : list byte) :
  let inbox := [text_frame d1 false; text_frame d2 false; text_frame d3 true] in
  let st := mkProtocol (Some (mkSocket Open script)) 2 (mkManager false false) [] in
  fst (start_listening inbox st) = Block
  /\ on_message_calls (trace (snd (start_listening inbox st)))
     = [(GetString d1 ++ GetString d2 ++ GetString d3)%string].
Proof.
  intros inbox st. subst inbox st.
  unfold start_listening, try_log, listening_loop, bind, dispatch; simpl.
  destruct (on_message _); simpl; split; reflexivity.
Qed.

(** ** The lock on the send path *)

Lemma lock_untouched_refl (st : Protocol) : lock_untouched st st.
Proof. repeat split. Qed.

Lemma lock_untouched_trans (a b c : Protocol) :
  lock_untouched a b -> lock_untouched b c -> lock_untouched a c.
Proof. unfold lock_untouched. intuition congruence. Qed.

Lemma lock_untouched_released (a b c : Protocol) :
  lock_untouched a b -> lock_released b c -> lock_released a c.
Proof.
  unfold lock_untouched, lock_released.
  intros (H1 & H2 & H3) (H4 & H5 & H6 & H7).
  repeat split; try congruence; exact H7.
Qed.

Ltac count_events :=
  repeat rewrite waits_app; repeat rewrite releases_app;
  unfold waits, releases in *; simpl; try lia.

Ltac run_step :=
  cbv beta iota; cbn [socket semaphore manager trace State send_script].

Ltac lock_done :=
  unfold lock_untouched, lock_released; run_step;
  repeat split; count_events.

(** One call of [send_chunk_async], whatever it is given: it schedules the
    next chunk (and then the chunk it wrote lies inside the buffer), or it
    wrote the last chunk and released the lock, or it raised and left the
    lock alone.  It never blocks. *)
Lemma send_chunk_async_cases (buf : list byte) (L n i : Z) (st : Protocol) :
  match send_chunk_async (buf, L, n, i) st with
  | (Return (SendScheduled next), st') =>
      next = (buf, L, n, i + 1)
      /\ 0 <= i
      /\ SEND_CHUNK_SIZE * (i + 1) <= Z.of_nat (List.length buf)
      /\ lock_untouched st st'
  | (Return SendCompleted, st') => lock_released st st'
  | (Raise _, st') => lock_untouched st st'
  | (Block, _) | (OutOfFuel, _) => False
  end.
Proof.
  assert (Hseg : forall c : Z,
            (0 <=? SEND_CHUNK_SIZE * i) && (0 <=? c)
            && (c <=? Z.of_nat (List.length buf) - SEND_CHUNK_SIZE * i) = true ->
            0 <= i /\ c <= Z.of_nat (List.length buf) - SEND_CHUNK_SIZE * i).
  { intros c Hc. apply andb_prop in Hc. destruct Hc as [Hc E3].
    apply andb_prop in Hc. destruct Hc as [E1 E2].
    apply Z.leb_le in E1, E2, E3. unfold SEND_CHUNK_SIZE in *. lia. }
  cbv [send_chunk_async try_log bind ArraySegment socket_SendAsync socket_attr
       get_socket semaphore_Release emit ret raise negb].
  destruct (i =? n - 1) eqn:Elast; cbv beta iota;
    match goal with
    | |- context [if ?c then _ else _] => destruct c eqn:Eseg
    end; run_step; try (lock_done; fail);
    apply Hseg in Eseg;
    destruct (socket st) as [s0|] eqn:Es; run_step;
    try (lock_done; fail);
    destruct (send_script s0) as [|[e|] rest] eqn:Escript; run_step;
    try (lock_done; fail);
    try (destruct (Int32_MaxValue <=? semaphore st) eqn:Emax; run_step;
         lock_done; rewrite <- app_assoc; simpl; eauto).
  all: destruct Eseg; unfold SEND_CHUNK_SIZE in *; unfold lock_untouched; run_step;
    repeat split; try lia; count_events.
Qed.

Lemma continue_sending_completed (fuel : nat) :
  continue_sending fuel SendCompleted = ret tt.
Proof. destruct fuel; reflexivity. Qed.

(** The continuation chain from chunk [i] on: it ends, with the lock
    released by its last chunk or with an exception and the lock left
    alone.  The fuel is enough as soon as it exceeds what is left of the
    buffer. *)
Lemma continue_sending_cases (buf : list byte) (L n : Z) (fuel : nat) :
  forall (i : Z) (st : Protocol),
    SEND_CHUNK_SIZE * i <= Z.of_nat (List.length buf) ->
    Z.of_nat (List.length buf) - i < Z.of_nat fuel ->
    match continue_sending fuel (SendScheduled (buf, L, n, i)) st with
    | (Return _, st') => lock_released st st'
    | (Raise _, st') => lock_untouched st st'
    | (Block, _) | (OutOfFuel, _) => False
    end.
Proof.
  induction fuel as [|fuel IH]; intros i st Hi Hfuel.
  - unfold SEND_CHUNK_SIZE in Hi. lia.
  - cbn [continue_sending]. unfold bind.
    pose proof (send_chunk_async_cases buf L n i st) as Hstep.
    destruct (send_chunk_async (buf, L, n, i) st) as [[[next|]|e| |] st1];
      try contradiction.
    + destruct Hstep as (-> & Hi0 & Hnext & Hlock).
      specialize (IH (i + 1) st1 Hnext ltac:(lia)).
      destruct (continue_sending fuel (SendScheduled (buf, L, n, i + 1)) st1)
        as [[[]|e| |] st2]; try contradiction.
      * eapply lock_untouched_released; eauto.
      * eapply lock_untouched_trans; eauto.
    + rewrite continue_sending_completed. exact Hstep.
    + exact Hstep.
Qed.



(** ** The chunks of a send *)

Lemma writes_app (t u : list event) : writes (t ++ u) = writes t ++ writes u.
Proof.
  induction t as [|e t IH]; simpl; auto.
  destruct e; simpl; auto. now rewrite IH.
Qed.

Lemma writes_write_events (ws : list (list byte * bool)) :
  writes (map write_event ws) = ws.
Proof.
  induction ws as [|[c l] ws IH]; simpl; auto. now rewrite IH.
Qed.

Lemma ceil_div_bounds (L : Z) :
  0 < L ->
  let n := ceil_div L SEND_CHUNK_SIZE in
  0 < n
  /\ SEND_CHUNK_SIZE * (n - 1) < L <= SEND_CHUNK_SIZE * n
  /\ L - SEND_CHUNK_SIZE * (n - 1)
     = (if L mod SEND_CHUNK_SIZE =? 0 then SEND_CHUNK_SIZE else L mod SEND_CHUNK_SIZE).
Proof.
  intros HL n. subst n. unfold ceil_div, SEND_CHUNK_SIZE.
  pose proof (Z.div_mod L 1024 ltac:(lia)) as Hdm.
  pose proof (Z.mod_pos_bound L 1024 ltac:(lia)) as Hm.
  destruct (L mod 1024 =? 0) eqn:E.
  - apply Z.eqb_eq in E. lia.
  - apply Z.eqb_neq in E. lia.
Qed.

Section Chunks.

Variable buf : list byte.
Let L : Z := Z.of_nat (List.length buf).

(** Sizes, flags and contents of [chunks], for [k + 1] chunks from [i] on
    that cover the rest of the buffer. *)
Lemma chunks_shape (k : nat) :
  forall i : Z,
    0 <= i ->
    SEND_CHUNK_SIZE * (i + Z.of_nat k) < L <= SEND_CHUNK_SIZE * (i + Z.of_nat k + 1) ->
    write_sizes (chunks buf k i)
    = repeat SEND_CHUNK_SIZE k ++ [L - SEND_CHUNK_SIZE * (i + Z.of_nat k)]
    /\ write_flags (chunks buf k i) = repeat false k ++ [true]
    /\ List.concat (map fst (chunks buf k i)) = skipn (Z.to_nat (SEND_CHUNK_SIZE * i)) buf.
Proof.
  subst L. unfold SEND_CHUNK_SIZE.
  induction k as [|k IH]; intros i Hi Hk.
  - cbn [chunks write_sizes write_flags map repeat app fst snd List.concat].
    unfold SEND_CHUNK_SIZE.
    rewrite app_nil_r.
    rewrite firstn_all2 by (rewrite length_skipn; lia).
    repeat split. f_equal. rewrite length_skipn. lia.
  - destruct (IH (i + 1) ltac:(lia) ltac:(lia)) as (Hs & Hf & Hc).
    cbn [chunks write_sizes write_flags map repeat app fst snd List.concat].
    unfold write_sizes, write_flags in Hs, Hf. rewrite Hs, Hf, Hc.
    unfold SEND_CHUNK_SIZE.
    repeat split.
    + f_equal.
      * rewrite length_firstn, length_skipn. lia.
      * do 2 f_equal. lia.
    + replace (Z.to_nat (1024 * (i + 1)))
        with (Z.to_nat 1024 + Z.to_nat (1024 * i))%nat by lia.
      rewrite <- skipn_skipn. apply firstn_skipn.
Qed.

(** The chain from chunk [i] on, on a socket that accepts every write:
    it issues exactly [chunks buf k i], then releases the lock. *)
Lemma continue_sending_chunks (n : Z) (k : nat) :
  forall (fuel : nat) (i : Z) (st : Protocol) (s : Socket),
    socket st = Some s ->
    accepting s = true ->
    semaphore st < Int32_MaxValue ->
    0 <= i ->
    n - 1 = i + Z.of_nat k ->
    SEND_CHUNK_SIZE * (n - 1) < L ->
    (k < fuel)%nat ->
    exists st',
      continue_sending fuel (SendScheduled (buf, L, n, i)) st = (Return tt, st')
      /\ trace st' = trace st ++ map write_event (chunks buf k i) ++ [EvRelease]
      /\ semaphore st' = semaphore st + 1.
Proof.
  induction k as [|k IH]; intros fuel i st s Hs Hacc Hsem Hi Hn HL Hfuel;
    (destruct fuel as [|fuel]; [lia|]);
    cbn [continue_sending];
    cbv [bind send_chunk_async try_log ArraySegment socket_SendAsync socket_attr
         get_socket semaphore_Release emit ret raise negb].
  - replace (i =? n - 1) with true by (symmetry; apply Z.eqb_eq; lia).
    replace ((0 <=? SEND_CHUNK_SIZE * i) && (0 <=? L - SEND_CHUNK_SIZE * i)
             && (L - SEND_CHUNK_SIZE * i <=? Z.of_nat (List.length buf) - SEND_CHUNK_SIZE * i))
      with true
      by (symmetry; rewrite !andb_true_iff, !Z.leb_le; subst L;
          unfold SEND_CHUNK_SIZE in *; lia).
    rewrite Hs. run_step.
    assert (Hrel : (Int32_MaxValue <=? semaphore st) = false) by (apply Z.leb_gt; lia).
    unfold accepting in Hacc.
    destruct (send_script s) as [|[e|] rest]; run_step;
      try (simpl in Hacc; discriminate);
      rewrite Hrel; run_step; rewrite continue_sending_completed; unfold ret;
      eexists; (split; [reflexivity|]); run_step; rewrite <- app_assoc; split; reflexivity.
  - replace (i =? n - 1) with false by (symmetry; apply Z.eqb_neq; lia).
    replace ((0 <=? SEND_CHUNK_SIZE * i) && (0 <=? SEND_CHUNK_SIZE)
             && (SEND_CHUNK_SIZE <=? Z.of_nat (List.length buf) - SEND_CHUNK_SIZE * i))
      with true
      by (symmetry; rewrite !andb_true_iff, !Z.leb_le; subst L;
          unfold SEND_CHUNK_SIZE in *; lia).
    rewrite Hs. run_step.
    unfold accepting in Hacc.
    destruct (send_script s) as [|[e|] rest] eqn:Escript; run_step;
      try (simpl in Hacc; discriminate).
    + edestruct (IH fuel (i + 1)) as (st' & Hrun & Htrace & Hsem');
        [ | | | | | | | exists st'; split; [exact Hrun|] ].
      * run_step. exact Hs.
      * unfold accepting. rewrite Escript. reflexivity.
      * run_step. exact Hsem.
      * lia.
      * lia.
      * exact HL.
      * lia.
      * rewrite Htrace. run_step. rewrite <- app_assoc. split; [reflexivity | exact Hsem'].
    + edestruct (IH fuel (i + 1)) as (st' & Hrun & Htrace & Hsem');
        [ | | | | | | | exists st'; split; [exact Hrun|] ].
      * run_step. reflexivity.
      * unfold accepting. simpl. simpl in Hacc. exact Hacc.
      * run_step. exact Hsem.
      * lia.
      * lia.
      * exact HL.
      * lia.
      * rewrite Htrace. run_step. rewrite <- app_assoc. split; [reflexivity | exact Hsem'].
Qed.

End Chunks.

(** The fuel [send_message_run] gives to the chain is the fuel of a chain
    started one step earlier. *)
Lemma send_fuel_enough (buf : list byte) (L n i : Z) (st : Protocol) :
  (status <- send_chunk_async (buf, L, n, i) ;;
   continue_sending (send_fuel status) status) st
  = continue_sending (S (S (List.length buf))) (SendScheduled (buf, L, n, i)) st.
Proof.
  cbn [continue_sending]. unfold bind.
  pose proof (send_chunk_async_cases buf L n i st) as Hstep.
  destruct (send_chunk_async (buf, L, n, i) st) as [[[next|]|e| |] st1];
    try contradiction; try reflexivity.
  destruct Hstep as (-> & _). reflexivity.
Qed.

(** C5: a payload of [L > 0] bytes, sent on an open socket that accepts
    every write, with the lock free, goes out in exactly [n = ceil (L / 1024)]
    writes (the chunk count [n] the code computes is the one integer with
    [1024 (n - 1) < L <= 1024 n]), issued one after the other: all but the last carry 1024 bytes
    and are not final, the last carries [L mod 1024] bytes (1024 when 1024
    divides [L]) and is the only one flagged final; put end to end the
    writes are the payload's bytes, and the lock is free again. *)
Theorem send_message_chunks `{Runtime}
    (payload : string) (st : Protocol) (s : Socket) (buf : list byte) :
  socket st = Some s ->
  State s = Open ->
  accepting s = true ->
  cancellation_requested (manager st) = false ->
  0 < semaphore st <= Int32_MaxValue ->
  GetBytes payload = inr buf ->
  0 < Z.of_nat (List.length buf) ->
  let L := Z.of_nat (List.length buf) in
  let n := ceil_div L SEND_CHUNK_SIZE in
  SEND_CHUNK_SIZE * (n - 1) < L <= SEND_CHUNK_SIZE * n
  /\ exists st',
    send_message_run payload st = (Return tt, st')
    /\ let ws := writes (since (trace st) (trace st')) in
       List.length ws = Z.to_nat n
       /\ write_sizes ws
          = repeat SEND_CHUNK_SIZE (Z.to_nat n - 1)
            ++ [if L mod SEND_CHUNK_SIZE =? 0 then SEND_CHUNK_SIZE
                else L mod SEND_CHUNK_SIZE]
       /\ write_flags ws = repeat false (Z.to_nat n - 1) ++ [true]
       /\ List.concat (map fst ws) = buf
       /\ semaphore st' = semaphore st.
Proof.
  intros Hs Hopen Hacc Hc Hsem Hbuf HL L n.
  destruct (ceil_div_bounds L HL) as (Hn & Hbounds & Hlast). fold n in Hn, Hbounds, Hlast.
  set (k := (Z.to_nat n - 1)%nat).
  set (st1 := mkProtocol (socket st) (semaphore st - 1) (manager st) (trace st ++ [EvWait])).
  assert (Hs1 : socket st1 = Some s) by exact Hs.
  assert (Hsem1 : semaphore st1 < Int32_MaxValue) by (subst st1; run_step; lia).
  assert (Hk : n - 1 = 0 + Z.of_nat k) by (subst k; lia).
  assert (Hfuel : (k < S (S (List.length buf)))%nat).
  { subst k. unfold SEND_CHUNK_SIZE in Hbounds. subst L. lia. }
  destruct (continue_sending_chunks buf n k (S (S (List.length buf))) 0 st1 s
              Hs1 Hacc Hsem1 ltac:(lia) Hk (proj1 Hbounds) Hfuel)
    as (st' & Hrun & Htrace & Hsem').
  fold L in Hrun.
  rewrite <- send_fuel_enough in Hrun.
  split; [exact Hbounds|].
  exists st'. split.
  - unfold send_message_run, send_message.
    cbv [bind socket_attr get_socket ret raise try_log semaphore_Wait negb].
    rewrite Hs, Hopen. cbn [WebSocketState_eqb]. run_step.
    rewrite Hc. replace (0 <? semaphore st) with true by (symmetry; apply Z.ltb_lt; lia).
    run_step. rewrite Hbuf. fold L n st1.
    unfold bind in Hrun.
    destruct (send_chunk_async (buf, L, n, 0) st1) as [[status|e| |] st2];
      try discriminate.
    exact Hrun.
  - cbv zeta. rewrite Htrace. subst st1. run_step.
    rewrite <- app_assoc, since_app.
    cbn [app writes]. rewrite writes_app, writes_write_events.
    cbn [writes]. rewrite app_nil_r.
    destruct (chunks_shape buf k 0 ltac:(lia)) as (Hsizes & Hflags & Hconcat).
    { fold L. fold L in Hbounds. unfold SEND_CHUNK_SIZE in *. lia. }
    fold L in Hsizes.
    repeat split.
    + rewrite <- (length_map snd). fold (write_flags (chunks buf k 0)). rewrite Hflags.
      rewrite length_app, repeat_length. cbn [List.length]. lia.
    + rewrite Hsizes. rewrite <- Hlast. do 3 f_equal. lia.
    + exact Hflags.
    + rewrite Hconcat. reflexivity.
    + rewrite Hsem'. cbn [semaphore]. lia.
Qed.

(** The scenario of C5: 2500 bytes go out as writes of 1024, 1024 and 452
    bytes, the third one final. *)
Lemma send_message_chunks_witness :
  exists st',
    @send_message_run ascii_runtime (string_of_list_byte (repeat x61 2500))
      (new_protocol open_socket) = (Return tt, st')
    /\ write_sizes (writes (trace st')) = [1024; 1024; 452]
    /\ write_flags (writes (trace st')) = [false; false; true].
Proof.
  destruct (@send_message_chunks ascii_runtime
              (string_of_list_byte (repeat x61 2500))
              (new_protocol open_socket) open_socket (repeat x61 2500))
    as (_ & st' & Hrun & _ & Hsizes & Hflags & _).
  - reflexivity.
  - reflexivity.
  - reflexivity.
  - reflexivity.
  - cbn [semaphore new_protocol]. unfold Int32_MaxValue. lia.
  - cbn [GetBytes ascii_runtime]. rewrite list_byte_of_string_of_list_byte. reflexivity.
  - rewrite repeat_length. lia.
  - unfold since in Hsizes, Hflags.
    cbn [new_protocol trace List.length skipn] in Hsizes, Hflags.
    exists st'. split; [exact Hrun|]. split.
    + rewrite Hsizes. rewrite repeat_length. vm_compute. reflexivity.
    + rewrite Hflags. rewrite repeat_length. vm_compute. reflexivity.
Defined.

(** ** Handler exceptions and the listening loop *)

Lemma similar_refl (st : Protocol) : similar st st.
Proof. repeat split. Qed.

Lemma similar_emit (e : event) (st st' : Protocol) :
  similar st st' ->
  similar (mkProtocol (socket st) (semaphore st) (manager st) (trace st ++ [e]))
          (mkProtocol (socket st') (semaphore st') (manager st') (trace st' ++ [e])).
Proof.
  intros (Hs & Hc & Hm & Ht). repeat split; auto. cbn [trace].
  unfold without_handler_logs in *. rewrite !filter_app. now rewrite Ht.
Qed.

Lemma respects_ret {A} (a : A) : respects (ret a) (ret a).
Proof. intros st st' Hsim. split; [reflexivity | exact Hsim]. Qed.

Lemma respects_raise {A} (e : exn) : respects (@raise A e) (raise e).
Proof. intros st st' Hsim. split; [reflexivity | exact Hsim]. Qed.

Lemma respects_bind {A B} (m m' : M A) (k k' : A -> M B) :
  respects m m' -> (forall a, respects (k a) (k' a)) ->
  respects (bind m k) (bind m' k').
Proof.
  intros Hm Hk st st' Hsim. unfold bind.
  destruct (Hm st st' Hsim) as [Hr Hs].
  destruct (m st) as [[a|e| |] st1], (m' st') as [[a'|e'| |] st1'];
    cbn [fst snd] in Hr, Hs |- *; try discriminate;
    try (split; [congruence | exact Hs]).
  injection Hr as ->. apply Hk, Hs.
Qed.

Lemma respects_emit (e : event) : respects (emit e) (emit e).
Proof.
  intros st st' Hsim. split; [reflexivity|]. apply similar_emit, Hsim.
Qed.

Lemma respects_try_log {A} (site : LogSite) (m m' : M A) :
  respects m m' -> respects (try_log site m) (try_log site m').
Proof.
  intros Hm st st' Hsim. unfold try_log.
  destruct (Hm st st' Hsim) as [Hr Hs].
  destruct (m st) as [[a|e| |] st1], (m' st') as [[a'|e'| |] st1'];
    cbn [fst snd] in Hr, Hs |- *; try discriminate;
    try (split; [exact Hr | exact Hs]).
  cbv [bind emit raise]. cbn [fst snd]. split; [exact Hr|]. apply similar_emit, Hs.
Qed.

Lemma respects_on_pool {A} (m m' : M A) (d : A) :
  respects m m' -> respects (on_pool m d) (on_pool m' d).
Proof.
  intros Hm st st' Hsim. unfold on_pool.
  destruct (Hm st st' Hsim) as [Hr Hs].
  destruct (m st) as [[a|e| |] st1], (m' st') as [[a'|e'| |] st1'];
    cbn [fst snd] in Hr, Hs; try discriminate; split; auto.
Qed.

(** A computation that reads the state only through its socket, semaphore
    and manager, and adds the same events whatever the trace. *)
Ltac respects_primitive :=
  let st := fresh "st" in let st' := fresh "st'" in
  let Hs := fresh "Hs" in let Hc := fresh "Hc" in
  let Hm := fresh "Hm" in let Ht := fresh "Ht" in
  intros st st' (Hs & Hc & Hm & Ht);
  cbv [get_socket semaphore_Wait semaphore_Release set_socket trigger_disconnect
       token_source_Cancel mre_Wait];
  rewrite <- ?Hs, <- ?Hc, <- ?Hm;
  repeat match goal with
         | |- context [if ?c then _ else _] => destruct c
         end;
  cbn [fst snd]; (split; [reflexivity|]);
  repeat split; cbn [socket semaphore manager trace]; try congruence;
  unfold without_handler_logs in *; rewrite ?filter_app; now rewrite ?Ht.

Lemma respects_get_socket : respects get_socket get_socket.
Proof.
  intros st st' Hsim. split; [|exact Hsim].
  unfold get_socket. cbn [fst]. destruct Hsim as (-> & _). reflexivity.
Qed.

Lemma respects_semaphore_Wait : respects semaphore_Wait semaphore_Wait.
Proof. respects_primitive. Qed.

Lemma respects_semaphore_Release : respects semaphore_Release semaphore_Release.
Proof. respects_primitive. Qed.

Lemma respects_set_socket (s : option Socket) : respects (set_socket s) (set_socket s).
Proof. respects_primitive. Qed.

Lemma respects_trigger_disconnect : respects trigger_disconnect trigger_disconnect.
Proof. respects_primitive. Qed.

Lemma respects_token_source_Cancel : respects token_source_Cancel token_source_Cancel.
Proof. respects_primitive. Qed.

Lemma respects_mre_Wait (context : Context) :
  respects (mre_Wait context) (mre_Wait context).
Proof. respects_primitive. Qed.

Create HintDb respects.
#[local] Hint Resolve respects_ret respects_raise respects_emit respects_get_socket
  respects_semaphore_Wait respects_semaphore_Release respects_set_socket
  respects_trigger_disconnect respects_token_source_Cancel respects_mre_Wait
  : respects.

(** Compositional proof of [respects]: through [bind], [try_log], [on_pool]
    and case distinctions on values both sides share. *)
Ltac respects_step :=
  first
    [ apply respects_bind; [|intros ?]
    | apply respects_try_log
    | apply respects_on_pool
    | solve [auto with respects]
    | match goal with
      | |- respects (match ?x with _ => _ end) _ => destruct x
      end ].

Ltac respects_auto := repeat respects_step.

Lemma respects_socket_attr : respects socket_attr socket_attr.
Proof. unfold socket_attr. respects_auto. Qed.

Lemma respects_dispose : respects dispose dispose.
Proof. unfold dispose. respects_auto. Qed.

Lemma respects_send_close : respects send_close send_close.
Proof. unfold send_close. respects_auto; apply respects_dispose. Qed.

Lemma respects_socket_is_open : respects socket_is_open socket_is_open.
Proof. unfold socket_is_open. respects_auto. Qed.

Lemma respects_socket_ReceiveAsync : respects socket_ReceiveAsync socket_ReceiveAsync.
Proof. unfold socket_ReceiveAsync. respects_auto; apply respects_socket_attr. Qed.

#[local] Hint Resolve respects_socket_attr respects_dispose respects_send_close
  respects_socket_is_open respects_socket_ReceiveAsync : respects.

Section Handler.

Variable R : Runtime.

Lemma respects_receive_chunk_async (task_result : option Task) (context : Context) :
  respects (@receive_chunk_async R task_result context)
           (@receive_chunk_async (quiet R) task_result context).
Proof.
  unfold receive_chunk_async, task_Result. cbn [GetString quiet].
  respects_auto.
Qed.

Lemma respects_pump (inbox : list Task) :
  forall context, respects (@pump R inbox context) (@pump (quiet R) inbox context).
Proof.
  induction inbox as [|task inbox IH]; intros context; cbn [pump].
  - apply respects_ret.
  - apply respects_bind; [apply respects_receive_chunk_async|].
    intros [c|c|]; auto with respects.
Qed.

(** The dispatch of one message: the handler's exception only adds its
    log line. *)
Lemma respects_dispatch (content : list string) :
  respects (@dispatch R content) (@dispatch (quiet R) content).
Proof.
  unfold dispatch. cbn [on_message quiet].
  apply respects_bind; [apply respects_emit|]. intros _.
  destruct (@on_message R (String.concat "" content)).
  - intros st st' (Hs & Hc & Hm & Ht). split; [reflexivity|].
    cbv [emit ret]. cbn [snd]. repeat split; cbn [socket semaphore manager trace]; auto.
    unfold without_handler_logs in *. rewrite filter_app. cbn [filter is_handler_log negb].
    now rewrite app_nil_r.
  - apply respects_ret.
Qed.

Lemma respects_listening_loop (fuel : nat) :
  forall inbox,
    respects (@listening_loop R fuel inbox) (@listening_loop (quiet R) fuel inbox).
Proof.
  induction fuel as [|fuel IH]; intros inbox; cbn [listening_loop].
  - apply respects_bind; [apply respects_socket_is_open|].
    intros [|]; [|apply respects_ret].
    intros st st' Hsim. split; [reflexivity | exact Hsim].
  - apply respects_bind; [apply respects_socket_is_open|].
    intros [|]; [|apply respects_ret].
    apply respects_bind; [apply respects_receive_chunk_async|]. intros status.
    apply respects_bind.
    { apply respects_on_pool. destruct status; auto with respects.
      apply respects_pump. }
    intros pumped.
    apply respects_bind; [apply respects_mre_Wait|]. intros _.
    apply respects_bind; [apply respects_dispatch|]. intros _.
    apply IH.
Qed.

Lemma respects_start_listening (inbox : list Task) :
  respects (@start_listening R inbox) (@start_listening (quiet R) inbox).
Proof.
  unfold start_listening. apply respects_try_log.
  apply respects_bind; [apply respects_socket_attr|]. intros _.
  apply respects_listening_loop.
Qed.

End Handler.

Lemma on_message_calls_without_handler_logs (t : list event) :
  on_message_calls (without_handler_logs t) = on_message_calls t.
Proof.
  unfold without_handler_logs.
  induction t as [|e t IH]; auto.
  destruct e as [| | | | | | | | |p|[]]; cbn; rewrite ?IH; reflexivity.
Qed.

(** ** The listening loop ends *)

Ltac break_match :=
  match goal with
  | |- context [match ?x with _ => _ end] =>
      lazymatch x with
      | context [match _ with _ => _ end] => fail
      | _ => first [is_var x; destruct x | destruct x eqn:?]
      end
  end.

Section Listening.

Context {R : Runtime}.

(** One call of [receive_chunk_async] is not a loop. *)
Lemma receive_chunk_async_total (task_result : option Task) (context : Context) :
  total (receive_chunk_async task_result context).
Proof.
  intros [sock sem [canc disc] tr].
  destruct task_result as [[[data [|] [| |]]|]|], sock as [s|], canc;
    cbv [receive_chunk_async try_log bind task_Result semaphore_Wait semaphore_Release
         send_close dispose trigger_disconnect token_source_Cancel set_socket
         socket_ReceiveAsync socket_attr get_socket emit ret raise negb
         EndOfMessage MessageType received socket semaphore manager trace
         cancellation_requested disconnect_event fst snd];
    repeat break_match; discriminate.
Qed.

(** A call that schedules the next read leaves the completion signal as
    it found it. *)
Lemma receive_chunk_async_scheduled
    (task_result : option Task) (context context' : Context) (st st' : Protocol) :
  receive_chunk_async task_result context st = (Return (ReceiveScheduled context'), st') ->
  mre context' = mre context.
Proof.
  destruct st as [sock sem [canc disc] tr].
  destruct task_result as [[[data [|] [| |]]|]|], sock as [s|], canc;
    cbv [receive_chunk_async try_log bind task_Result semaphore_Wait semaphore_Release
         send_close dispose trigger_disconnect token_source_Cancel set_socket
         socket_ReceiveAsync socket_attr get_socket emit ret raise negb
         EndOfMessage MessageType received socket semaphore manager trace
         cancellation_requested disconnect_event fst snd];
    repeat break_match; intros E; try discriminate;
    injection E as <- _; reflexivity.
Qed.

Lemma pump_total (inbox : list Task) :
  forall context, total (pump inbox context).
Proof.
  induction inbox as [|task inbox IH]; intros context st; cbn [pump].
  - discriminate.
  - unfold bind.
    pose proof (receive_chunk_async_total (Some task) context st) as Hstep.
    destruct (receive_chunk_async (Some task) context st) as [[[c|c|]|e| |] st1];
      cbn [fst] in *; try discriminate; try contradiction.
    apply IH.
Qed.

(** A chain that sets the completion signal has used at least one
    completion of the inbox. *)
Lemma pump_consumes (inbox : list Task) :
  forall context context' rest st st',
    pump inbox context st = (Return (context', rest), st') ->
    mre context = false ->
    mre context' = true ->
    (List.length rest < List.length inbox)%nat.
Proof.
  induction inbox as [|task inbox IH]; intros context context' rest st st' Hrun Hc Hc';
    cbn [pump] in Hrun.
  - injection Hrun as <- _ _. congruence.
  - unfold bind in Hrun.
    destruct (receive_chunk_async (Some task) context st) as [[[c|c|]|e| |] st1] eqn:E;
      try discriminate.
    + apply receive_chunk_async_scheduled in E.
      specialize (IH c context' rest st1 st' Hrun ltac:(congruence) Hc').
      cbn [List.length]. lia.
    + injection Hrun as _ <- _. cbn [List.length]. lia.
    + injection Hrun as <- _ _. congruence.
Qed.

Lemma dispatch_returns (content : list string) (st : Protocol) :
  fst (dispatch content st) = Return tt.
Proof.
  unfold dispatch. cbv [bind emit ret]. destruct (on_message _); reflexivity.
Qed.

(** The loop ends (blocked, raising or with the socket no longer open)
    within as many turns as the inbox has completions, plus one. *)
Lemma listening_loop_total (fuel : nat) :
  forall inbox st,
    (List.length inbox < fuel)%nat ->
    fst (listening_loop fuel inbox st) <> OutOfFuel.
Proof.
  induction fuel as [|fuel IH]; intros inbox st Hfuel; [lia|].
  cbn [listening_loop]. unfold bind at 1.
  assert (Hopen : exists open, socket_is_open st = (Return open, st))
    by (eexists; reflexivity).
  destruct Hopen as [open ->]. destruct open; [|discriminate].
  unfold bind at 1.
  pose proof (receive_chunk_async_total None (mkContext [] false) st) as Hfirst.
  destruct (receive_chunk_async None (mkContext [] false) st)
    as [[status|e| |] st1] eqn:E1; cbn [fst] in *; try discriminate; try contradiction.
  unfold bind at 1. unfold on_pool.
  assert (Hpumped :
    forall pumped st2,
      (match
         match status with
         | ReceiveScheduled context' => pump inbox context'
         | _ => ret (mkContext [] false, inbox)
         end st1
       with
       | (Raise _, st') | (Block, st') => (Return (mkContext [] false, []), st')
       | r => r
       end) = (Return pumped, st2) ->
      mre (fst pumped) = true ->
      (List.length (snd pumped) < List.length inbox)%nat).
  { intros [c rest] st2 Hp Hmre. cbn [fst snd] in *.
    destruct status as [c0|c0|].
    - apply receive_chunk_async_scheduled in E1. cbn [mre] in E1.
      destruct (pump inbox c0 st1) as [[[c1 rest1]|e| |] st3] eqn:E2; try discriminate.
      + injection Hp as -> -> _.
        eapply pump_consumes; eauto.
      + injection Hp as <- _ _. discriminate.
      + injection Hp as <- _ _. discriminate.
    - unfold ret in Hp. injection Hp as <- _ _. discriminate.
    - unfold ret in Hp. injection Hp as <- _ _. discriminate. }
  assert (Htotal :
    fst (match status with
         | ReceiveScheduled context' => pump inbox context'
         | _ => ret (mkContext [] false, inbox)
         end st1) <> OutOfFuel).
  { destruct status; try discriminate. apply pump_total. }
  destruct (match status with
            | ReceiveScheduled context' => pump inbox context'
            | _ => ret (mkContext [] false, inbox)
            end st1) as [[pumped|e| |] st2]; cbn [fst] in Htotal; try contradiction.
  - specialize (Hpumped pumped st2 eq_refl).
    unfold bind at 1. unfold mre_Wait.
    destruct (cancellation_requested (manager st2)); [discriminate|].
    destruct (mre (fst pumped)); [|discriminate].
    unfold bind at 1.
    pose proof (dispatch_returns (content (fst pumped)) st2) as Hd.
    destruct (dispatch (content (fst pumped)) st2) as [[[]|e| |] st3];
      cbn [fst] in Hd; try discriminate.
    apply IH. specialize (Hpumped eq_refl). lia.
  - unfold bind at 1. unfold mre_Wait. cbn [fst mre].
    destruct (cancellation_requested (manager st2)); discriminate.
  - unfold bind at 1. unfold mre_Wait. cbn [fst mre].
    destruct (cancellation_requested (manager st2)); discriminate.
Qed.

Lemma start_listening_total (inbox : list Task) : total (start_listening inbox).
Proof.
  intros st. unfold start_listening, try_log.
  unfold bind at 1. cbv [socket_attr bind get_socket ret raise].
  destruct (socket st).
  - pose proof (listening_loop_total (S (List.length inbox)) inbox st ltac:(lia)) as Hl.
    destruct (listening_loop (S (List.length inbox)) inbox st) as [[[]|e| |] st1];
      cbn [fst] in *; try discriminate. contradiction.
  - discriminate.
Qed.

End Listening.

(** Three one-chunk messages, the handler raising on the second: all three
    are dispatched, in order, and the exception is logged in between. *)
Lemma handler_raises_on_second_message :
  let inbox := [text_frame (list_byte_of_string "ab") true;
                text_frame (list_byte_of_string "boom") true;
                text_frame (list_byte_of_string "cd") true] in
  let st' := snd (@start_listening ascii_runtime inbox (new_protocol open_socket)) in
  on_message_calls (trace st') = ["ab"; "boom"; "cd"]%string
  /\ filter is_handler_log (trace st') = [EvLogException LogHandler].
Proof.
  vm_compute. split; reflexivity.
Qed.

(** ** The readiness latch *)

Lemma registrations_app (ops ops' : list Factory.operation) :
  Factory.registrations (ops ++ ops')
  = Factory.registrations ops ++ Factory.registrations ops'.
Proof. unfold Factory.registrations. apply flat_map_app. Qed.

Lemma ready_listeners_due (cs : list Factory.Callback) :
  filter (fun l : string * Factory.Callback => String.eqb (fst l) "ready")
         (map (pair "ready"%string) cs)
  = map (pair "ready"%string) cs.
Proof. induction cs as [|c cs IH]; simpl; [|rewrite IH]; reflexivity. Qed.

Lemma ready_listeners_forgotten (cs : list Factory.Callback) :
  filter (fun l : string * Factory.Callback => negb (String.eqb (fst l) "ready"))
         (map (pair "ready"%string) cs)
  = [].
Proof. induction cs as [|c cs IH]; simpl; auto. Qed.

(** Where the registrations are after any sequence of operations: all
    pending before readiness, all delivered, in order, after it. *)
Lemma factory_invariant (ops : list Factory.operation) :
  match Factory.proto (Factory.run ops) with
  | None =>
      Factory.calls (Factory.run ops) = []
      /\ Factory.listeners (Factory.run ops)
         = map (pair "ready"%string) (Factory.registrations ops)
  | Some _ =>
      Factory.listeners (Factory.run ops) = []
      /\ map fst (Factory.calls (Factory.run ops)) = Factory.registrations ops
  end.
Proof.
  induction ops as [|op ops IH] using rev_ind.
  - simpl. auto.
  - unfold Factory.run in *. rewrite fold_left_app, registrations_app.
    cbn [fold_left Factory.step].
    destruct (fold_left Factory.step ops Factory.new_factory) as [[p|] ls cs];
      cbn [Factory.proto Factory.listeners Factory.calls] in IH;
      destruct IH as [H1 H2]; subst; destruct op as [c|q];
      cbn [Factory.step Factory.on_ready Factory.ready Factory.once Factory.emit
           Factory.proto Factory.listeners Factory.calls Factory.registrations
           flat_map app filter map].
    + split; auto. rewrite map_app. cbn. now rewrite H2.
    + split; auto. now rewrite !app_nil_r.
    + split; auto. now rewrite map_app.
    + rewrite !app_nil_r, ready_listeners_due, ready_listeners_forgotten. split; auto.
      rewrite !map_map. cbn. apply map_id.
Qed.

(** C9: after any sequence of [on_ready] and [ready] calls on a new
    factory in which no callback is registered twice: a callback passed to
    [on_ready] while a protocol is set is invoked at once with that
    protocol, and otherwise it is registered as a one-time listener of
    'ready', invoked with the protocol by the next [ready] and then
    forgotten; and no callback has been invoked more than once: each
    registered callback is either invoked once or still pending. *)
Theorem on_ready_at_most_once (ops : list Factory.operation) :
  NoDup (Factory.registrations ops) ->
  let f := Factory.run ops in
  (forall callback,
     Factory.on_ready callback f
     = match Factory.proto f with
       | Some p =>
           Factory.mkFactory (Some p) (Factory.listeners f)
             (Factory.calls f ++ [(callback, p)])
       | None =>
           Factory.mkFactory None (Factory.listeners f ++ [("ready"%string, callback)])
             (Factory.calls f)
       end)
  /\ (forall callback p,
        Factory.proto f = None ->
        let f' := Factory.ready p (Factory.on_ready callback f) in
        Factory.proto f' = Some p
        /\ Factory.listeners f' = []
        /\ Factory.calls f'
           = map (fun c => (c, p)) (Factory.registrations ops ++ [callback]))
  /\ NoDup (map fst (Factory.calls f))
  /\ map fst (Factory.calls f) ++ map snd (Factory.listeners f)
     = Factory.registrations ops.
Proof.
  intros Hnodup f. pose proof (factory_invariant ops) as Hinv. fold f in Hinv.
  split; [|split].
  - intros callback. unfold Factory.on_ready, Factory.once.
    destruct (Factory.proto f); reflexivity.
  - intros callback p Hnone. rewrite Hnone in Hinv. destruct Hinv as [Hcalls Hls].
    unfold Factory.on_ready. rewrite Hnone.
    cbn [Factory.ready Factory.once Factory.emit Factory.proto Factory.listeners
         Factory.calls].
    rewrite Hcalls, Hls. cbn [app].
    replace (map (pair "ready"%string) (Factory.registrations ops) ++ [("ready"%string, callback)])
      with (map (pair "ready"%string) (Factory.registrations ops ++ [callback]))
      by (rewrite map_app; reflexivity).
    rewrite ready_listeners_due, ready_listeners_forgotten, map_map.
    repeat split.
  - destruct (Factory.proto f); destruct Hinv as [H1 H2].
    + rewrite H1, H2, app_nil_r. split; [exact Hnodup | reflexivity].
    + rewrite H1, H2, map_map. cbn [map app snd]. split; [constructor|].
      apply map_id.
Qed.

Lemma on_ready_at_most_once_witness :
  let ops := [Factory.OnReady 1; Factory.Ready 7; Factory.OnReady 2; Factory.Ready 8]%nat in
  NoDup (map fst (Factory.calls (Factory.run ops)))
  /\ Factory.calls (Factory.run ops) = [(1, 7); (2, 7)]%nat.
Proof.
  intros ops.
  assert (Hnodup : NoDup (Factory.registrations ops)).
  { subst ops. cbn. repeat constructor; cbn; intuition discriminate. }
  split.
  - exact (proj1 (proj2 (proj2 (on_ready_at_most_once ops Hnodup)))).
  - reflexivity.
Defined.

(** * Further properties of the receive path *)

Lemma data_result_inv (final : bool) (r : WebSocketReceiveResult) :
  data_result final r = true ->
  EndOfMessage r = final /\ MessageType r <> Close.
Proof.
  unfold data_result. intros H. apply andb_prop in H. destruct H as [H1 H2].
  split.
  - apply Bool.eqb_prop, H1.
  - destruct (MessageType r); discriminate.
Qed.

Section ReceiveSteps.

Context {R : Runtime}.

(** The first call of a message, made by the loop: it issues the read. *)
Lemma receive_chunk_async_first (context : Context) (st : Protocol) (s : Socket) :
  socket st = Some s ->
  receive_chunk_async None context st
  = (Return (ReceiveScheduled context),
     mkProtocol (socket st) (semaphore st) (manager st) (trace st ++ [EvReceiveAsync])).
Proof.
  intros Hs. destruct st as [sock sem man tr]. cbn [socket] in Hs. subst sock.
  reflexivity.
Qed.

(** A non-final data chunk with a permit at hand. *)
Lemma receive_chunk_async_nonfinal
    (r : WebSocketReceiveResult) (context : Context) (st : Protocol) (s : Socket) :
  data_result false r = true ->
  socket st = Some s ->
  cancellation_requested (manager st) = false ->
  0 < semaphore st ->
  receive_chunk_async (Some (RanToCompletion r)) context st
  = (Return (ReceiveScheduled
               (mkContext (content context ++ [GetString (received r)]) (mre context))),
     mkProtocol (socket st) (semaphore st - 1) (manager st)
       (trace st ++ [EvWait; EvReceiveAsync])).
Proof.
  intros Hr Hs Hc Hsem. apply data_result_inv in Hr. destruct Hr as [Heom Hty].
  apply Z.ltb_lt in Hsem.
  destruct st as [sock sem man tr]. cbn [socket semaphore manager trace] in *. subst sock.
  cbv [receive_chunk_async try_log bind task_Result semaphore_Wait
       socket_ReceiveAsync socket_attr get_socket emit ret raise negb].
  rewrite Heom. run_step. rewrite Hc, Hsem. run_step.
  destruct (MessageType r); try contradiction; run_step;
    rewrite <- app_assoc; reflexivity.
Qed.

(** A non-final chunk without permit: the continuation waits. *)
Lemma receive_chunk_async_nonfinal_blocks
    (r : WebSocketReceiveResult) (context : Context) (st : Protocol) :
  EndOfMessage r = false ->
  cancellation_requested (manager st) = false ->
  semaphore st <= 0 ->
  receive_chunk_async (Some (RanToCompletion r)) context st = (Block, st).
Proof.
  intros Heom Hc Hsem. apply Z.ltb_ge in Hsem.
  cbv [receive_chunk_async try_log bind task_Result semaphore_Wait ret negb].
  rewrite Heom, Hc, Hsem. reflexivity.
Qed.

(** The final data chunk of a message. *)
Lemma receive_chunk_async_final
    (r : WebSocketReceiveResult) (context : Context) (st : Protocol) :
  data_result true r = true ->
  semaphore st < Int32_MaxValue ->
  receive_chunk_async (Some (RanToCompletion r)) context st
  = (Return (ReceiveCompleted
               (mkContext (content context ++ [GetString (received r)]) true)),
     mkProtocol (socket st) (semaphore st + 1) (manager st)
       (trace st ++ [EvRelease; EvMreSet])).
Proof.
  intros Hr Hsem. apply data_result_inv in Hr. destruct Hr as [Heom Hty].
  apply Z.leb_gt in Hsem.
  cbv [receive_chunk_async try_log bind task_Result semaphore_Release emit ret raise negb].
  rewrite Heom. run_step.
  destruct (MessageType r); try contradiction; run_step;
    rewrite Hsem; run_step; rewrite <- app_assoc; reflexivity.
Qed.

(** The chain of a message of any number of non-final data chunks and a
    final one, with a permit for each non-final chunk: the texts are
    appended in arrival order, the completion signal is set, and the
    completions after the final chunk are left for the next message. *)
Lemma pump_reassembles (parts : list WebSocketReceiveResult) :
  forall (last : WebSocketReceiveResult) (rest : list Task)
         (context : Context) (st : Protocol) (s : Socket),
    forallb (data_result false) parts = true ->
    data_result true last = true ->
    socket st = Some s ->
    cancellation_requested (manager st) = false ->
    Z.of_nat (List.length parts) <= semaphore st ->
    semaphore st - Z.of_nat (List.length parts) < Int32_MaxValue ->
    pump (map RanToCompletion parts ++ RanToCompletion last :: rest) context st
    = (Return (mkContext (content context ++ decoded (parts ++ [last])) true, rest),
       mkProtocol (socket st) (semaphore st - Z.of_nat (List.length parts) + 1)
         (manager st)
         (trace st ++ nonfinal_events parts ++ [EvRelease; EvMreSet])).
Proof.
  induction parts as [|r parts IH]; intros last rest context st s Hparts Hlast Hs Hc Hsem Hmax.
  - cbn [map app pump List.length nonfinal_events flat_map decoded] in *.
    unfold bind. rewrite receive_chunk_async_final by (auto; lia).
    unfold ret. do 2 f_equal. f_equal. lia.
  - cbn [forallb] in Hparts. apply andb_prop in Hparts. destruct Hparts as [Hr Hparts].
    cbn [List.length] in Hsem, Hmax.
    cbn [map app pump]. unfold bind at 1.
    rewrite (receive_chunk_async_nonfinal r context st s) by (auto; lia).
    rewrite (IH last rest _ _ s); auto; cbn [socket semaphore manager trace]; try lia.
    cbn [content mre List.length nonfinal_events flat_map decoded map app].
    rewrite <- !app_assoc. cbn [app].
    do 2 f_equal.
    f_equal. lia.
Qed.

End ReceiveSteps.

Lemma on_message_calls_app (t u : list event) :
  on_message_calls (t ++ u) = on_message_calls t ++ on_message_calls u.
Proof.
  induction t as [|e t IH]; simpl; auto.
  destruct e; simpl; auto. now rewrite IH.
Qed.

Lemma socket_is_open_true (st : Protocol) (s : Socket) :
  socket st = Some s -> State s = Open -> socket_is_open st = (Return true, st).
Proof.
  intros Hs Hopen. cbv [socket_is_open bind get_socket ret]. now rewrite Hs, Hopen.
Qed.

Section ListeningTurns.

Context {R : Runtime}.

(** What the dispatch of one message leaves behind. *)
Lemma dispatch_effect (content : list string) (st : Protocol) :
  exists logs,
    dispatch content st
    = (Return tt,
       mkProtocol (socket st) (semaphore st) (manager st)
         (trace st ++ EvOnMessage (String.concat "" content) :: logs))
    /\ on_message_calls logs = [].
Proof.
  unfold dispatch. destruct (on_message (String.concat "" content)).
  - exists [EvLogException LogHandler]. split; [|reflexivity].
    cbv [bind emit ret]. run_step. now rewrite <- app_assoc.
  - exists []. split; reflexivity.
Qed.

(** One turn of the loop whose message completes: the loop goes on with the
    dispatch and the rest of the inbox. *)
Lemma listening_loop_turn
    (fuel : nat) (inbox rest : list Task) (context' : Context)
    (st st2 : Protocol) (s : Socket) :
  socket st = Some s ->
  State s = Open ->
  pump inbox (mkContext [] false)
    (mkProtocol (socket st) (semaphore st) (manager st) (trace st ++ [EvReceiveAsync]))
  = (Return (context', rest), st2) ->
  mre context' = true ->
  cancellation_requested (manager st2) = false ->
  listening_loop (S fuel) inbox st
  = (dispatch (content context') ;;; listening_loop fuel rest) st2.
Proof.
  intros Hs Hopen Hpump Hmre Hc.
  cbn [listening_loop]. unfold bind at 1.
  rewrite (socket_is_open_true st s Hs Hopen).
  unfold bind at 1.
  rewrite (receive_chunk_async_first _ st s Hs).
  unfold bind at 1. unfold on_pool. rewrite Hpump.
  unfold bind at 1. unfold mre_Wait. cbn [fst snd]. rewrite Hc, Hmre.
  reflexivity.
Qed.

(** A turn of the loop whose message does not complete: the listening
    thread stays in [mre.Wait]. *)
Lemma listening_loop_waits
    (fuel : nat) (inbox : list Task) (st st2 : Protocol) (s : Socket) :
  socket st = Some s ->
  State s = Open ->
  (pump inbox (mkContext [] false)
     (mkProtocol (socket st) (semaphore st) (manager st) (trace st ++ [EvReceiveAsync]))
   = (Block, st2)
   \/ pump inbox (mkContext [] false)
        (mkProtocol (socket st) (semaphore st) (manager st) (trace st ++ [EvReceiveAsync]))
      = (Return (mkContext [] false, []), st2)
   \/ exists e,
        pump inbox (mkContext [] false)
          (mkProtocol (socket st) (semaphore st) (manager st) (trace st ++ [EvReceiveAsync]))
        = (Raise e, st2)) ->
  cancellation_requested (manager st2) = false ->
  listening_loop (S fuel) inbox st = (Block, st2).
Proof.
  intros Hs Hopen Hpump Hc.
  cbn [listening_loop]. unfold bind at 1.
  rewrite (socket_is_open_true st s Hs Hopen).
  unfold bind at 1.
  rewrite (receive_chunk_async_first _ st s Hs).
  unfold bind at 1. unfold on_pool.
  destruct Hpump as [-> | [-> | [e ->]]];
    unfold bind at 1; unfold mre_Wait; cbn [fst snd mre]; rewrite Hc; reflexivity.
Qed.

Lemma start_listening_loop (inbox : list Task) (st : Protocol) (s : Socket) (r : result unit) (st' : Protocol) :
  socket st = Some s ->
  listening_loop (S (List.length inbox)) inbox st = (r, st') ->
  (forall e, r <> Raise e) ->
  start_listening inbox st = (r, st').
Proof.
  intros Hs Hloop Hr.
  unfold start_listening, try_log. unfold bind at 1.
  cbv [socket_attr bind get_socket ret raise]. rewrite Hs.
  rewrite Hloop. destruct r; auto. exfalso. eapply Hr; eauto.
Qed.

(** Single-chunk messages through the loop, with any fuel that exceeds
    their number. *)
Lemma listening_loop_single_chunks (rs : list WebSocketReceiveResult) :
  forall (fuel : nat) (st : Protocol) (s : Socket),
    forallb (data_result true) rs = true ->
    socket st = Some s ->
    State s = Open ->
    cancellation_requested (manager st) = false ->
    semaphore st + Z.of_nat (List.length rs) <= Int32_MaxValue ->
    (List.length rs < fuel)%nat ->
    exists st',
      listening_loop fuel (map RanToCompletion rs) st = (Block, st')
      /\ on_message_calls (trace st') = on_message_calls (trace st) ++ decoded rs
      /\ semaphore st' = semaphore st + Z.of_nat (List.length rs)
      /\ socket st' = socket st
      /\ manager st' = manager st.
Proof.
  induction rs as [|r rs IH]; intros fuel st s Hrs Hs Hopen Hc Hmax Hfuel;
    (destruct fuel as [|fuel]; [cbn [List.length] in Hfuel; lia|]).
  - eexists. split.
    + apply (listening_loop_waits fuel _ st
               (mkProtocol (socket st) (semaphore st) (manager st)
                  (trace st ++ [EvReceiveAsync])) s Hs Hopen);
        [right; left; reflexivity | exact Hc].
    + cbn [trace semaphore socket manager map decoded List.length].
      rewrite on_message_calls_app. cbn. rewrite !app_nil_r.
      repeat split. lia.
  - cbn [forallb] in Hrs. apply andb_prop in Hrs. destruct Hrs as [Hr Hrs].
    cbn [List.length] in Hmax, Hfuel. cbn [map].
    assert (Hpump :
      pump (RanToCompletion r :: map RanToCompletion rs) (mkContext [] false)
        (mkProtocol (socket st) (semaphore st) (manager st) (trace st ++ [EvReceiveAsync]))
      = (Return (mkContext [GetString (received r)] true, map RanToCompletion rs),
         mkProtocol (socket st) (semaphore st + 1) (manager st)
           ((trace st ++ [EvReceiveAsync]) ++ [EvRelease; EvMreSet]))).
    { cbn [pump]. unfold bind.
      rewrite receive_chunk_async_final by (auto; cbn [semaphore]; lia).
      reflexivity. }
    erewrite listening_loop_turn; eauto.
    unfold bind at 1. cbn [content].
    destruct (dispatch_effect [GetString (received r)]
                (mkProtocol (socket st) (semaphore st + 1) (manager st)
                   ((trace st ++ [EvReceiveAsync]) ++ [EvRelease; EvMreSet])))
      as (logs & -> & Hlogs).
    cbn [socket semaphore manager trace String.concat].
    edestruct (IH fuel) as (st' & Hrun & Hcalls & Hsem & Hsock & Hman);
      [exact Hrs | | exact Hopen | | | | exists st'; split; [exact Hrun|] ];
      cbn [socket semaphore manager trace]; auto; try lia.
    rewrite Hcalls, Hsem, Hsock, Hman. cbn [socket semaphore manager trace].
    rewrite !on_message_calls_app. cbn [on_message_calls app]. rewrite Hlogs.
    cbn [decoded map List.length]. rewrite !app_nil_r, <- app_assoc. cbn [app].
    repeat split. lia.
Qed.

(** X1: messages of one chunk.  On an open socket, with the token not
    cancelled, any sequence of messages that each arrive as one final data
    chunk is dispatched whole: the handler is called once per message with
    the decoded text, in arrival order, whatever it raises; then the loop
    waits for the next message.  Every such message adds one permit to the
    semaphore, which no [Wait] had taken. *)
Theorem start_listening_single_chunks
    (rs : list WebSocketReceiveResult) (st : Protocol) (s : Socket) :
  forallb (data_result true) rs = true ->
  socket st = Some s ->
  State s = Open ->
  cancellation_requested (manager st) = false ->
  semaphore st + Z.of_nat (List.length rs) <= Int32_MaxValue ->
  exists st',
    start_listening (map RanToCompletion rs) st = (Block, st')
    /\ on_message_calls (trace st') = on_message_calls (trace st) ++ decoded rs
    /\ semaphore st' = semaphore st + Z.of_nat (List.length rs).
Proof.
  intros Hrs Hs Hopen Hc Hmax.
  destruct (listening_loop_single_chunks rs (S (List.length (map RanToCompletion rs)))
              st s Hrs Hs Hopen Hc Hmax)
    as (st' & Hrun & Hcalls & Hsem & _).
  { rewrite length_map. lia. }
  exists st'. split; [|split; assumption].
  eapply start_listening_loop; eauto. discriminate.
Qed.

End ListeningTurns.

Lemma start_listening_single_chunks_witness :
  exists st',
    @start_listening ascii_runtime
      [text_frame (list_byte_of_string "ab") true;
       text_frame (list_byte_of_string "boom") true]
      (new_protocol open_socket) = (Block, st')
    /\ on_message_calls (trace st') = ["ab"; "boom"]%string
    /\ semaphore st' = 3.
Proof.
  assert (H : 1 + Z.of_nat 2 <= Int32_MaxValue) by (unfold Int32_MaxValue; lia).
  exact (@start_listening_single_chunks ascii_runtime
           [mkResult (list_byte_of_string "ab") true Text;
            mkResult (list_byte_of_string "boom") true Text]
           (new_protocol open_socket) open_socket
           eq_refl eq_refl eq_refl eq_refl H).
Defined.

Section ListeningMessages.

Context {R : Runtime}.

(** One message of several chunks, alone in the inbox, through the whole
    loop. *)
Lemma listening_reassembles
    (parts : list WebSocketReceiveResult) (last : WebSocketReceiveResult)
    (st : Protocol) (s : Socket) :
  forallb (data_result false) parts = true ->
  data_result true last = true ->
  socket st = Some s ->
  State s = Open ->
  cancellation_requested (manager st) = false ->
  Z.of_nat (List.length parts) <= semaphore st ->
  semaphore st - Z.of_nat (List.length parts) < Int32_MaxValue ->
  exists st',
    start_listening (map RanToCompletion parts ++ [RanToCompletion last]) st = (Block, st')
    /\ on_message_calls (trace st')
       = on_message_calls (trace st) ++ [String.concat "" (decoded (parts ++ [last]))]
    /\ semaphore st' = semaphore st - Z.of_nat (List.length parts) + 1.
Proof.
  intros Hparts Hlast Hs Hopen Hc Hsem Hmax.
  set (inbox := map RanToCompletion parts ++ [RanToCompletion last]).
  pose proof (pump_reassembles parts last [] (mkContext [] false)
                (mkProtocol (socket st) (semaphore st) (manager st)
                   (trace st ++ [EvReceiveAsync])) s
                Hparts Hlast Hs Hc Hsem Hmax) as Hpump.
  cbn [socket semaphore manager trace content app] in Hpump. fold inbox in Hpump.
  assert (Hfuel : exists fuel, S (List.length inbox) = S (S fuel)).
  { subst inbox. rewrite length_app. cbn [List.length].
    exists (List.length (map RanToCompletion parts)). lia. }
  destruct Hfuel as [fuel Hfuel].
  destruct (dispatch_effect (decoded (parts ++ [last]))
              (mkProtocol (socket st) (semaphore st - Z.of_nat (List.length parts) + 1)
                 (manager st)
                 ((trace st ++ [EvReceiveAsync]) ++ nonfinal_events parts
                  ++ [EvRelease; EvMreSet])))
    as (logs & Hdispatch & Hlogs).
  cbn [socket semaphore manager trace] in Hdispatch.
  eexists. split.
  - eapply start_listening_loop; [exact Hs | | discriminate].
    rewrite Hfuel.
    erewrite listening_loop_turn; [ | exact Hs | exact Hopen | exact Hpump | reflexivity | exact Hc].
    unfold bind at 1. cbn [content]. rewrite Hdispatch.
    eapply listening_loop_waits;
      [ exact Hs | exact Hopen
      | right; left; cbn [socket semaphore manager trace pump]; reflexivity
      | exact Hc ].
  - cbn [trace semaphore].
    rewrite !on_message_calls_app. cbn [on_message_calls app].
    rewrite Hlogs.
    replace (on_message_calls (nonfinal_events parts)) with (@nil string).
    + cbn [on_message_calls app]. rewrite !app_nil_r. split; reflexivity.
    + clear. induction parts as [|r parts IH]; cbn; auto.
Qed.

(** X2: a message of several chunks through the loop.  On an open socket,
    with the token not cancelled and at least as many permits as the
    message has non-final chunks, a message of any number of non-final data
    chunks and a final one is handed to the handler exactly once, as the
    concatenation of the decoded chunks in arrival order; the loop then
    waits for the next message, and the semaphore has lost one permit per
    non-final chunk and gained one. *)
Theorem start_listening_reassembles
    (parts : list WebSocketReceiveResult) (last : WebSocketReceiveResult)
    (st : Protocol) (s : Socket) :
  forallb (data_result false) parts = true ->
  data_result true last = true ->
  socket st = Some s ->
  State s = Open ->
  cancellation_requested (manager st) = false ->
  Z.of_nat (List.length parts) <= semaphore st ->
  semaphore st - Z.of_nat (List.length parts) < Int32_MaxValue ->
  exists st',
    start_listening (map RanToCompletion parts ++ [RanToCompletion last]) st = (Block, st')
    /\ on_message_calls (trace st')
       = on_message_calls (trace st) ++ [String.concat "" (decoded (parts ++ [last]))]
    /\ semaphore st' = semaphore st - Z.of_nat (List.length parts) + 1.
Proof.
  exact (listening_reassembles parts last st s).
Qed.

(** A message with more non-final chunks than there are permits: the chain
    takes every permit, then waits. *)
Lemma pump_blocks (parts : list WebSocketReceiveResult) :
  forall (rest : list Task) (context : Context) (st : Protocol) (s : Socket),
    forallb (data_result false) parts = true ->
    socket st = Some s ->
    cancellation_requested (manager st) = false ->
    0 <= semaphore st < Z.of_nat (List.length parts) ->
    pump (map RanToCompletion parts ++ rest) context st
    = (Block,
       mkProtocol (socket st) 0 (manager st)
         (trace st ++ nonfinal_events (firstn (Z.to_nat (semaphore st)) parts))).
Proof.
  induction parts as [|r parts IH]; intros rest context st s Hparts Hs Hc Hsem.
  - cbn [List.length] in Hsem. lia.
  - cbn [forallb] in Hparts. apply andb_prop in Hparts. destruct Hparts as [Hr Hparts].
    cbn [List.length] in Hsem. cbn [map app pump]. unfold bind at 1.
    destruct (Z.eq_dec (semaphore st) 0) as [Hzero|Hpos].
    + rewrite receive_chunk_async_nonfinal_blocks;
        [ | apply (data_result_inv _ _ Hr) | exact Hc | lia ].
      rewrite Hzero. cbn [Z.to_nat firstn nonfinal_events flat_map].
      rewrite app_nil_r. destruct st as [sock sem man tr]. cbn in *. now subst sem.
    + rewrite (receive_chunk_async_nonfinal r context st s) by (auto; lia).
      rewrite (IH rest _ _ s); auto; cbn [socket semaphore manager trace]; try lia.
      replace (Z.to_nat (semaphore st)) with (S (Z.to_nat (semaphore st - 1))) by lia.
      cbn [firstn nonfinal_events flat_map app]. rewrite <- app_assoc. reflexivity.
Qed.

(** X3: too few permits.  On an open socket, with the token not cancelled,
    a message that has more non-final data chunks than the semaphore has
    permits is never dispatched, whatever follows it in the inbox: the
    chain takes every permit, the next [Wait] blocks, the completion signal
    is never set and the listening loop waits on it.  No handler call is
    made and the semaphore is left at 0. *)
Theorem start_listening_starves
    (parts : list WebSocketReceiveResult) (rest : list Task)
    (st : Protocol) (s : Socket) :
  forallb (data_result false) parts = true ->
  socket st = Some s ->
  State s = Open ->
  cancellation_requested (manager st) = false ->
  0 <= semaphore st < Z.of_nat (List.length parts) ->
  exists st',
    start_listening (map RanToCompletion parts ++ rest) st = (Block, st')
    /\ on_message_calls (trace st') = on_message_calls (trace st)
    /\ semaphore st' = 0
    /\ waits (trace st') = (waits (trace st) + Z.to_nat (semaphore st))%nat
    /\ releases (trace st') = releases (trace st).
Proof.
  intros Hparts Hs Hopen Hc Hsem.
  pose proof (pump_blocks parts rest (mkContext [] false)
                (mkProtocol (socket st) (semaphore st) (manager st)
                   (trace st ++ [EvReceiveAsync])) s Hparts Hs Hc Hsem) as Hpump.
  cbn [socket semaphore manager trace] in Hpump.
  eexists. split.
  - eapply start_listening_loop; [exact Hs | | discriminate].
    eapply listening_loop_waits; [exact Hs | exact Hopen | left; exact Hpump | exact Hc].
  - cbn [trace semaphore].
    assert (Hev : forall rs : list WebSocketReceiveResult,
              on_message_calls (nonfinal_events rs) = []
              /\ waits (nonfinal_events rs) = List.length rs
              /\ releases (nonfinal_events rs) = 0%nat).
    { induction rs as [|r rs (IH1 & IH2 & IH3)]; [repeat split|].
      change (nonfinal_events (r :: rs))
        with (EvWait :: EvReceiveAsync :: nonfinal_events rs).
      unfold waits, releases in *.
      cbn [on_message_calls filter is_Wait is_Release List.length].
      rewrite IH1, IH2, IH3. repeat split. }
    destruct (Hev (firstn (Z.to_nat (semaphore st)) parts)) as (H1 & H2 & H3).
    rewrite !on_message_calls_app, !waits_app, !releases_app, H1, H2, H3.
    rewrite length_firstn.
    unfold waits, releases. cbn. rewrite !app_nil_r.
    repeat split; lia.
Qed.

End ListeningMessages.

Lemma start_listening_reassembles_witness :
  exists st',
    @start_listening ascii_runtime
      [text_frame (list_byte_of_string "ab") false;
       text_frame (list_byte_of_string "cd") true]
      (new_protocol open_socket) = (Block, st')
    /\ on_message_calls (trace st') = ["abcd"]%string
    /\ semaphore st' = 1.
Proof.
  assert (H1 : Z.of_nat 1 <= 1) by lia.
  assert (H2 : 1 - Z.of_nat 1 < Int32_MaxValue) by (unfold Int32_MaxValue; lia).
  exact (@start_listening_reassembles ascii_runtime
           [mkResult (list_byte_of_string "ab") false Text]
           (mkResult (list_byte_of_string "cd") true Text)
           (new_protocol open_socket) open_socket
           eq_refl eq_refl eq_refl eq_refl eq_refl H1 H2).
Defined.

Lemma start_listening_starves_witness :
  exists st',
    @start_listening ascii_runtime
      [text_frame (list_byte_of_string "ab") false;
       text_frame (list_byte_of_string "cd") false;
       text_frame (list_byte_of_string "ef") true]
      (new_protocol open_socket) = (Block, st')
    /\ on_message_calls (trace st') = []
    /\ semaphore st' = 0.
Proof.
  assert (H : 0 <= 1 < Z.of_nat 2) by lia.
  destruct (@start_listening_starves ascii_runtime
              [mkResult (list_byte_of_string "ab") false Text;
               mkResult (list_byte_of_string "cd") false Text]
              [text_frame (list_byte_of_string "ef") true]
              (new_protocol open_socket) open_socket
              eq_refl eq_refl eq_refl eq_refl H)
    as (st' & Hrun & Hcalls & Hsem & _).
  exists st'. repeat split; assumption.
Defined.

(** * Close frames, faulted reads and disposal *)





(** X6: a disposed protocol.  Whatever the protocol's state, after
    [dispose]: the socket's [Dispose] was called exactly when there was a
    socket; [is_connected] evaluates to [None] without raising;
    [send_close] does nothing; and [run_forever] does not block but raises
    [OperationCanceledException], the token being cancelled as well as the
    disconnect event set. *)
Theorem after_dispose (st : Protocol) :
  let st1 := snd (dispose st) in
  filter is_SocketDispose (since (trace st) (trace st1))
  = match socket st with
    | Some _ => [EvSocketDispose]
    | None => []
    end
  /\ is_connected (Some st1) = PyNone
  /\ send_close st1 = (Return tt, st1)
  /\ run_forever st1 = (Raise OperationCanceledException, st1).
Proof.
  intros st1.
  pose proof (dispose_clears_socket st) as Hs. fold st1 in Hs.
  pose proof (dispose_cancels st) as Hm. fold st1 in Hm.
  repeat split.
  - subst st1. destruct st as [[s|] sem man tr];
      cbv [dispose bind trigger_disconnect token_source_Cancel get_socket emit
           set_socket ret socket semaphore manager trace snd];
      rewrite <- ?app_assoc; rewrite since_app; reflexivity.
  - unfold is_connected. now rewrite Hs.
  - cbv [send_close bind get_socket ret]. now rewrite Hs.
  - unfold run_forever. now rewrite Hm.
Qed.

(** * Further properties of the send path *)

Lemma releases_write_events (ws : list (list byte * bool)) :
  releases (map write_event ws) = 0%nat.
Proof. induction ws as [|w ws IH]; auto. Qed.

Section SendScript.

Variable buf : list byte.
Let L : Z := Z.of_nat (List.length buf).

(** The chain from chunk [i] on, on a socket with any script: the chunks
    are written in order up to the first refusal, which ends the chain with
    its exception and no release; without refusal the chain writes them all
    and releases the lock. *)
Lemma continue_sending_script (n : Z) (k : nat) :
  forall (fuel : nat) (i : Z) (st : Protocol) (s : Socket),
    socket st = Some s ->
    semaphore st < Int32_MaxValue ->
    0 <= i ->
    n - 1 = i + Z.of_nat k ->
    SEND_CHUNK_SIZE * (n - 1) < L ->
    (k < fuel)%nat ->
    exists st',
      match refusal (send_script s) (S k) with
      | None =>
          continue_sending fuel (SendScheduled (buf, L, n, i)) st = (Return tt, st')
          /\ trace st' = trace st ++ map write_event (chunks buf k i) ++ [EvRelease]
          /\ semaphore st' = semaphore st + 1
      | Some (j, e) =>
          continue_sending fuel (SendScheduled (buf, L, n, i)) st = (Raise e, st')
          /\ trace st' = trace st ++ map write_event (firstn j (chunks buf k i))
                         ++ [EvLogException LogSendChunk]
          /\ semaphore st' = semaphore st
      end
      /\ manager st' = manager st
      /\ option_map State (socket st') = Some (State s).
Proof.
  induction k as [|k IH]; intros fuel i st s Hs Hsem Hi Hn HL Hfuel;
    (destruct fuel as [|fuel]; [lia|]);
    cbn [continue_sending];
    cbv [bind send_chunk_async try_log ArraySegment socket_SendAsync socket_attr
         get_socket semaphore_Release emit ret raise negb].
  - replace (i =? n - 1) with true by (symmetry; apply Z.eqb_eq; lia).
    replace ((0 <=? SEND_CHUNK_SIZE * i) && (0 <=? L - SEND_CHUNK_SIZE * i)
             && (L - SEND_CHUNK_SIZE * i <=? Z.of_nat (List.length buf) - SEND_CHUNK_SIZE * i))
      with true
      by (symmetry; rewrite !andb_true_iff, !Z.leb_le; subst L;
          unfold SEND_CHUNK_SIZE in *; lia).
    rewrite Hs. run_step.
    assert (Hrel : (Int32_MaxValue <=? semaphore st) = false) by (apply Z.leb_gt; lia).
    destruct (send_script s) as [|[e|] rest]; cbn [refusal]; run_step;
      rewrite ?Hrel; run_step; rewrite ?continue_sending_completed; unfold ret;
      eexists; (split; [split; [reflexivity|]|]); run_step;
      rewrite <- ?app_assoc; repeat split; try exact Hs; reflexivity || (rewrite Hs; reflexivity).
  - replace (i =? n - 1) with false by (symmetry; apply Z.eqb_neq; lia).
    replace ((0 <=? SEND_CHUNK_SIZE * i) && (0 <=? SEND_CHUNK_SIZE)
             && (SEND_CHUNK_SIZE <=? Z.of_nat (List.length buf) - SEND_CHUNK_SIZE * i))
      with true
      by (symmetry; rewrite !andb_true_iff, !Z.leb_le; subst L;
          unfold SEND_CHUNK_SIZE in *; lia).
    rewrite Hs. run_step.
    destruct (send_script s) as [|[e|] rest] eqn:Escript; run_step.
    + destruct (IH fuel (i + 1)
                  (mkProtocol (socket st) (semaphore st) (manager st)
                     (trace st ++
                      [EvSendAsync
                         (firstn (Z.to_nat SEND_CHUNK_SIZE)
                            (skipn (Z.to_nat (SEND_CHUNK_SIZE * i)) buf)) false])) s)
        as (st' & Hrun & Hman & Hsock); run_step; auto; try lia.
      rewrite Escript in Hrun. cbn [refusal] in Hrun |- *.
      cbn [socket semaphore manager trace] in Hrun, Hman, Hsock.
      exists st'. destruct Hrun as (Hrun & Htrace & Hsem').
      repeat split; auto.
      rewrite Htrace. cbn [chunks map app]. rewrite <- app_assoc. reflexivity.
    + eexists. cbn [refusal firstn map app]. run_step.
      repeat split.
    + destruct (IH fuel (i + 1)
                  (mkProtocol (Some (mkSocket (State s) rest)) (semaphore st) (manager st)
                     (trace st ++
                      [EvSendAsync
                         (firstn (Z.to_nat SEND_CHUNK_SIZE)
                            (skipn (Z.to_nat (SEND_CHUNK_SIZE * i)) buf)) false]))
                  (mkSocket (State s) rest))
        as (st' & Hrun & Hman & Hsock); run_step; auto; try lia.
      cbn [send_script State socket semaphore manager trace] in Hrun, Hsock.
      exists st'.
      change (refusal (None :: rest) (S (S k)))
        with (match refusal rest (S k) with
              | Some (j, e) => Some (S j, e)
              | None => None
              end).
      destruct (refusal rest (S k)) as [[j e]|];
        destruct Hrun as (Hrun & Htrace & Hsem');
        repeat split; auto;
        rewrite Htrace; cbn [chunks firstn map app];
        rewrite <- app_assoc; reflexivity.
Qed.

End SendScript.

Lemma send_chunk_async_keeps (data : message_data) (st : Protocol) :
  connection_kept st (snd (send_chunk_async data st)).
Proof.
  destruct data as [[[buf L] n] i]. destruct st as [[[state script]|] sem man tr];
    cbv [send_chunk_async try_log bind ArraySegment socket_SendAsync socket_attr
         get_socket semaphore_Release emit ret raise negb connection_kept
         socket semaphore manager trace State send_script snd option_map];
    repeat break_match; split; reflexivity.
Qed.

Lemma continue_sending_keeps (fuel : nat) :
  forall (status : SendStatus) (st : Protocol),
    connection_kept st (snd (continue_sending fuel status st)).
Proof.
  induction fuel as [|fuel IH]; intros [data|] st; cbn [continue_sending];
    try (split; reflexivity).
  unfold bind.
  pose proof (send_chunk_async_keeps data st) as [H1 H2].
  destruct (send_chunk_async data st) as [[status|e| |] st1]; cbn [snd] in *;
    try (split; assumption).
  destruct (IH status st1) as [H3 H4]. split; congruence.
Qed.

Section SendOutcome.

Context {R : Runtime}.

(** Once the lock is taken and the payload encoded, the whole send is the
    chain started at chunk 0, but for the log line [send_message] adds when
    chunk 0 itself raises. *)
Lemma send_message_run_started
    (payload : string) (st : Protocol) (s : Socket) (buf : list byte) :
  socket st = Some s ->
  State s = Open ->
  cancellation_requested (manager st) = false ->
  0 < semaphore st ->
  GetBytes payload = inr buf ->
  let L := Z.of_nat (List.length buf) in
  let run :=
    continue_sending (S (S (List.length buf)))
      (SendScheduled (buf, L, ceil_div L SEND_CHUNK_SIZE, 0))
      (mkProtocol (socket st) (semaphore st - 1) (manager st) (trace st ++ [EvWait])) in
  exists logs,
    send_message_run payload st
    = (fst run,
       mkProtocol (socket (snd run)) (semaphore (snd run)) (manager (snd run))
         (trace (snd run) ++ logs))
    /\ (logs = [] \/ logs = [EvLogException LogSendMessage]).
Proof.
  intros Hs Hopen Hc Hsem Hbuf L run. subst run.
  rewrite <- send_fuel_enough.
  destruct st as [sock sem man tr]. cbn [socket semaphore manager trace] in *. subst sock.
  unfold send_message_run, send_message.
  cbv [bind socket_attr get_socket ret raise try_log semaphore_Wait negb emit].
  run_step. rewrite Hopen. cbn [WebSocketState_eqb]. run_step.
  rewrite Hc. replace (0 <? sem) with true by (symmetry; apply Z.ltb_lt; lia).
  run_step. rewrite Hbuf. fold L.
  destruct (send_chunk_async (buf, L, ceil_div L SEND_CHUNK_SIZE, 0)
              (mkProtocol (Some s) (sem - 1) man (tr ++ [EvWait])))
    as [[status|e| |] st2]; cbn [fst snd].
  - exists []. split; [|left; reflexivity].
    destruct (continue_sending (send_fuel status) status st2) as [r [sock2 sem2 man2 tr2]].
    cbn [fst snd socket semaphore manager trace]. now rewrite app_nil_r.
  - exists [EvLogException LogSendMessage]. split; [reflexivity | right; reflexivity].
  - exists []. split; [|left; reflexivity].
    destruct st2 as [sock2 sem2 man2 tr2]. cbn. now rewrite app_nil_r.
  - exists []. split; [|left; reflexivity].
    destruct st2 as [sock2 sem2 man2 tr2]. cbn. now rewrite app_nil_r.
Qed.

(** The outcome of a whole send of a non-empty payload, by the socket's
    script. *)
Lemma send_message_run_outcome
    (payload : string) (st : Protocol) (s : Socket) (buf : list byte) :
  socket st = Some s ->
  State s = Open ->
  cancellation_requested (manager st) = false ->
  0 < semaphore st <= Int32_MaxValue ->
  GetBytes payload = inr buf ->
  0 < Z.of_nat (List.length buf) ->
  let n := Z.to_nat (ceil_div (Z.of_nat (List.length buf)) SEND_CHUNK_SIZE) in
  let all := chunks buf (n - 1) 0 in
  let st' := snd (send_message_run payload st) in
  match refusal (send_script s) n with
  | None =>
      fst (send_message_run payload st) = Return tt
      /\ writes (since (trace st) (trace st')) = all
      /\ semaphore st' = semaphore st
      /\ releases (trace st') = (releases (trace st) + 1)%nat
  | Some (j, e) =>
      fst (send_message_run payload st) = Raise e
      /\ writes (since (trace st) (trace st')) = firstn j all
      /\ semaphore st' = semaphore st - 1
      /\ releases (trace st') = releases (trace st)
  end.
Proof.
  intros Hs Hopen Hc Hsem Hbuf HL n all st'.
  destruct (ceil_div_bounds _ HL) as (Hn & Hbounds & _).
  set (L := Z.of_nat (List.length buf)) in *.
  set (st1 := mkProtocol (socket st) (semaphore st - 1) (manager st) (trace st ++ [EvWait])).
  destruct (send_message_run_started payload st s buf Hs Hopen Hc (proj1 Hsem) Hbuf)
    as (logs & Hrun & Hlogs).
  fold L st1 in Hrun.
  assert (Hk : ceil_div L SEND_CHUNK_SIZE - 1 = 0 + Z.of_nat (n - 1)) by (subst n; lia).
  assert (Hfuel : (n - 1 < S (S (List.length buf)))%nat).
  { subst n. clear - Hbounds Hn. unfold SEND_CHUNK_SIZE in *. subst L. lia. }
  destruct (continue_sending_script buf (ceil_div L SEND_CHUNK_SIZE) (n - 1)
              (S (S (List.length buf))) 0 st1 s Hs
              ltac:(subst st1; cbn [semaphore]; lia) ltac:(lia) Hk (proj1 Hbounds) Hfuel)
    as (st2 & Hchain & _).
  replace (S (n - 1)) with n in Hchain by (subst n; lia).
  fold L in Hchain. fold all in Hchain.
  assert (Hno : writes logs = [] /\ releases logs = 0%nat)
    by (destruct Hlogs as [-> | ->]; split; reflexivity).
  destruct Hno as [Hw Hr].
  subst st'. rewrite Hrun. cbn [fst snd].
  destruct (refusal (send_script s) n) as [[j e]|];
    destruct Hchain as (Hchain & Htrace & Hsem2);
    rewrite Hchain; cbn [fst snd trace semaphore];
    rewrite Htrace, Hsem2; subst st1; cbn [trace semaphore];
    rewrite <- !app_assoc, since_app;
    rewrite !releases_app, !writes_app, writes_write_events, releases_write_events, Hw, Hr;
    unfold releases; cbn [app writes filter is_Release List.length];
    rewrite ?app_nil_r; repeat split; lia.
Qed.

(** X7: a send on a socket that refuses a write.  For a payload of [L > 0]
    bytes on an open socket with the lock free: the chunks are written in
    order up to the first write the socket refuses; if none of the
    [ceil (L / 1024)] writes is refused the send completes, having written
    every chunk and released the lock; if write [j] is the first refused,
    exactly the [j] chunks before it were written, the send ends with the
    socket's exception, no chunk after it is attempted, and the lock is not
    released: the semaphore stays one permit down. *)
Theorem send_message_under_script
    (payload : string) (st : Protocol) (s : Socket) (buf : list byte) :
  socket st = Some s ->
  State s = Open ->
  cancellation_requested (manager st) = false ->
  0 < semaphore st <= Int32_MaxValue ->
  GetBytes payload = inr buf ->
  0 < Z.of_nat (List.length buf) ->
  let n := Z.to_nat (ceil_div (Z.of_nat (List.length buf)) SEND_CHUNK_SIZE) in
  let all := chunks buf (n - 1) 0 in
  let st' := snd (send_message_run payload st) in
  match refusal (send_script s) n with
  | None =>
      fst (send_message_run payload st) = Return tt
      /\ writes (since (trace st) (trace st')) = all
      /\ semaphore st' = semaphore st
      /\ releases (trace st') = (releases (trace st) + 1)%nat
  | Some (j, e) =>
      fst (send_message_run payload st) = Raise e
      /\ writes (since (trace st) (trace st')) = firstn j all
      /\ semaphore st' = semaphore st - 1
      /\ releases (trace st') = releases (trace st)
  end.
Proof.
  exact (send_message_run_outcome payload st s buf).
Qed.

(** X8: after a failed send.  On an open socket with the token not
    cancelled and exactly one permit, a send that ends with an exception
    once its payload is encoded (an empty payload, a refused write) leaves
    the semaphore without permit, and every later [send_message], whatever
    its payload, blocks in [Wait] without writing anything. *)
Theorem send_message_after_failed_send
    (payload payload' : string) (st : Protocol) (s : Socket) (buf : list byte) (e : exn) :
  socket st = Some s ->
  State s = Open ->
  cancellation_requested (manager st) = false ->
  semaphore st = 1 ->
  GetBytes payload = inr buf ->
  fst (send_message_run payload st) = Raise e ->
  let st' := snd (send_message_run payload st) in
  semaphore st' = 0
  /\ send_message_run payload' st' = (Block, st').
Proof.
  intros Hs Hopen Hc Hsem Hbuf Hraise st'.
  destruct (send_message_run_started payload st s buf Hs Hopen Hc ltac:(lia) Hbuf)
    as (logs & Hrun & Hlogs).
  set (L := Z.of_nat (List.length buf)) in *.
  set (st1 := mkProtocol (socket st) (semaphore st - 1) (manager st) (trace st ++ [EvWait]))
    in *.
  pose proof (continue_sending_cases buf L (ceil_div L SEND_CHUNK_SIZE)
                (S (S (List.length buf))) 0 st1
                ltac:(unfold SEND_CHUNK_SIZE; lia) ltac:(lia)) as Hcases.
  pose proof (continue_sending_keeps (S (S (List.length buf)))
                (SendScheduled (buf, L, ceil_div L SEND_CHUNK_SIZE, 0)) st1) as [Hman Hsock].
  subst st'. rewrite Hrun in Hraise |- *. cbn [fst snd] in Hraise |- *.
  destruct (continue_sending (S (S (List.length buf)))
              (SendScheduled (buf, L, ceil_div L SEND_CHUNK_SIZE, 0)) st1)
    as [[[]|e'| |] st2]; cbn [fst snd] in *; try discriminate.
  destruct Hcases as (Hsem2 & _).
  subst st1. cbn [semaphore manager socket] in *.
  split; [lia|].
  rewrite Hs in Hsock. cbn [option_map] in Hsock.
  destruct (socket st2) as [s2|] eqn:Es2; [|discriminate].
  cbn [option_map] in Hsock. injection Hsock as Hstate.
  unfold send_message_run, send_message.
  cbv [bind socket_attr get_socket ret raise try_log semaphore_Wait negb].
  run_step. rewrite Hstate, Hopen. cbn [WebSocketState_eqb]. run_step.
  rewrite Hman, Hc.
  replace (0 <? semaphore st2) with false by (symmetry; apply Z.ltb_ge; lia).
  reflexivity.
Qed.

End SendOutcome.

Lemma send_message_under_script_witness :
  let st := new_protocol (mkSocket Open [None; Some TransportError]) in
  let st' := snd (@send_message_run ascii_runtime
                    (string_of_list_byte (repeat x61 2500)) st) in
  fst (@send_message_run ascii_runtime (string_of_list_byte (repeat x61 2500)) st)
  = Raise TransportError
  /\ write_sizes (writes (trace st')) = [1024]
  /\ semaphore st' = 0.
Proof.
  intros st st'.
  assert (Hsem : 0 < 1 <= Int32_MaxValue) by (unfold Int32_MaxValue; lia).
  assert (Hbuf : @GetBytes ascii_runtime (string_of_list_byte (repeat x61 2500))
                 = inr (repeat x61 2500)).
  { cbn [GetBytes ascii_runtime]. now rewrite list_byte_of_string_of_list_byte. }
  assert (HL : 0 < Z.of_nat (List.length (repeat x61 2500)))
    by (rewrite repeat_length; lia).
  pose proof (@send_message_under_script ascii_runtime
                (string_of_list_byte (repeat x61 2500)) st
                (mkSocket Open [None; Some TransportError]) (repeat x61 2500)
                eq_refl eq_refl eq_refl Hsem Hbuf HL) as H.
  rewrite repeat_length in H.
  change (Z.to_nat (ceil_div (Z.of_nat 2500) SEND_CHUNK_SIZE)) with 3%nat in H.
  cbn [send_script refusal] in H.
  destruct H as (H1 & H2 & H3 & _).
  split; [exact H1|]. split; [|exact H3].
  unfold since in H2. cbn [st new_protocol trace List.length skipn] in H2.
  fold st' in H2. rewrite H2. vm_compute. reflexivity.
Defined.

Lemma send_message_after_failed_send_witness :
  let st' := snd (@send_message_run ascii_runtime "" (new_protocol open_socket)) in
  @send_message_run ascii_runtime "abc" st' = (Block, st').
Proof.
  exact (proj2 (@send_message_after_failed_send ascii_runtime "" "abc"
                  (new_protocol open_socket) open_socket [] ArgumentException
                  eq_refl eq_refl eq_refl eq_refl eq_refl eq_refl)).
Defined.

(** * What the two paths never do *)

Section AddsOnly.

Variable allowed : event -> bool.

Lemma adds_only_ret {A} (a : A) : adds_only allowed (ret a).
Proof. intros st. exists []. now rewrite app_nil_r. Qed.

Lemma adds_only_raise {A} (e : exn) : adds_only allowed (@raise A e).
Proof. intros st. exists []. now rewrite app_nil_r. Qed.

Lemma adds_only_emit (e : event) : allowed e = true -> adds_only allowed (emit e).
Proof. intros He st. exists [e]. cbn. now rewrite He. Qed.

Lemma adds_only_bind {A B} (m : M A) (k : A -> M B) :
  adds_only allowed m -> (forall a, adds_only allowed (k a)) ->
  adds_only allowed (bind m k).
Proof.
  intros Hm Hk st. unfold bind.
  destruct (Hm st) as (c1 & Ht1 & Hc1).
  destruct (m st) as [[a|e| |] st1]; cbn [snd] in *; try (exists c1; split; assumption).
  destruct (Hk a st1) as (c2 & Ht2 & Hc2).
  exists (c1 ++ c2). rewrite Ht2, Ht1, app_assoc, forallb_app, Hc1, Hc2. split; reflexivity.
Qed.

Lemma adds_only_try_log {A} (site : LogSite) (m : M A) :
  allowed (EvLogException site) = true ->
  adds_only allowed m -> adds_only allowed (try_log site m).
Proof.
  intros Hsite Hm st. unfold try_log.
  destruct (Hm st) as (c1 & Ht1 & Hc1).
  destruct (m st) as [[a|e| |] st1]; cbn [snd] in *; try (exists c1; split; assumption).
  exists (c1 ++ [EvLogException site]).
  cbv [bind emit raise]. cbn [snd trace].
  rewrite Ht1, app_assoc, forallb_app, Hc1. cbn. now rewrite Hsite.
Qed.

Lemma adds_only_on_pool {A} (m : M A) (d : A) :
  adds_only allowed m -> adds_only allowed (on_pool m d).
Proof.
  intros Hm st. unfold on_pool.
  destruct (Hm st) as (c1 & Ht1 & Hc1).
  destruct (m st) as [[a|e| |] st1]; cbn [snd] in *; exists c1; split; assumption.
Qed.

Lemma adds_only_get_socket : adds_only allowed get_socket.
Proof. intros st. exists []. now rewrite app_nil_r. Qed.

Lemma adds_only_socket_attr : adds_only allowed socket_attr.
Proof.
  unfold socket_attr. apply adds_only_bind; [apply adds_only_get_socket|].
  intros [s|]; [apply adds_only_ret | apply adds_only_raise].
Qed.

Lemma adds_only_set_socket (s : option Socket) : adds_only allowed (set_socket s).
Proof. intros st. exists []. cbn. now rewrite app_nil_r. Qed.

Lemma adds_only_semaphore_Wait :
  allowed EvWait = true -> adds_only allowed semaphore_Wait.
Proof.
  intros He st. unfold semaphore_Wait.
  destruct (cancellation_requested (manager st)); [exists []; now rewrite app_nil_r|].
  destruct (0 <? semaphore st); [|exists []; now rewrite app_nil_r].
  exists [EvWait]. cbn. now rewrite He.
Qed.

Lemma adds_only_semaphore_Release :
  allowed EvRelease = true -> adds_only allowed semaphore_Release.
Proof.
  intros He st. unfold semaphore_Release.
  destruct (Int32_MaxValue <=? semaphore st); [exists []; now rewrite app_nil_r|].
  exists [EvRelease]. cbn. now rewrite He.
Qed.

Lemma adds_only_mre_Wait (context : Context) : adds_only allowed (mre_Wait context).
Proof.
  intros st. unfold mre_Wait. exists [].
  destruct (cancellation_requested (manager st)); [|destruct (mre context)];
    now rewrite app_nil_r.
Qed.

End AddsOnly.

Lemma adds_only_weaken (allowed allowed' : event -> bool) {A} (m : M A) :
  (forall e, allowed e = true -> allowed' e = true) ->
  adds_only allowed m -> adds_only allowed' m.
Proof.
  intros Hsub Hm st. destruct (Hm st) as (calls & Ht & Hc).
  exists calls. split; [exact Ht|].
  rewrite forallb_forall in *. auto.
Qed.

Lemma pump_call_listen_call (e : event) : pump_call e = true -> listen_call e = true.
Proof. destruct e; cbn; auto. Qed.

Lemma adds_only_send_chunk_async (data : message_data) :
  adds_only send_call (send_chunk_async data).
Proof.
  destruct data as [[[buf L] n] i]. unfold send_chunk_async.
  apply adds_only_try_log; [reflexivity|].
  apply adds_only_bind.
  { unfold ArraySegment.
    destruct (_ && _); [apply adds_only_ret | apply adds_only_raise]. }
  intros chunk. apply adds_only_bind.
  { unfold socket_SendAsync. apply adds_only_bind; [apply adds_only_socket_attr|].
    intros s. destruct (send_script s) as [|[e|] rest].
    - now apply adds_only_emit.
    - intros st. exists []. cbn. now rewrite app_nil_r.
    - apply adds_only_bind; [|intros _; now apply adds_only_emit].
      intros st. exists []. cbn. now rewrite app_nil_r. }
  intros _. destruct (negb _); [apply adds_only_ret|].
  apply adds_only_bind; [now apply adds_only_semaphore_Release|].
  intros _. apply adds_only_ret.
Qed.

Lemma adds_only_continue_sending (fuel : nat) :
  forall status, adds_only send_call (continue_sending fuel status).
Proof.
  induction fuel as [|fuel IH]; intros [data|]; cbn [continue_sending];
    try apply adds_only_ret.
  - intros st. exists []. cbn. now rewrite app_nil_r.
  - apply adds_only_bind; [apply adds_only_send_chunk_async | apply IH].
Qed.

(** X9: what a send never does.  From any state and for any payload, a
    whole send only ever takes the lock, writes chunks, releases the lock
    and logs its own exceptions: it never reads from the socket, never
    calls the message handler, never closes or disposes the socket, never
    signals disconnection or cancels the token; and it leaves the manager
    and the socket's state as they were. *)
Theorem send_message_run_calls `{Runtime} (payload : string) (st : Protocol) :
  (exists calls,
     trace (snd (send_message_run payload st)) = trace st ++ calls
     /\ forallb send_call calls = true)
  /\ manager (snd (send_message_run payload st)) = manager st
  /\ option_map State (socket (snd (send_message_run payload st)))
     = option_map State (socket st).
Proof.
  split.
  - revert st. change (adds_only send_call (send_message_run payload)).
    unfold send_message_run. apply adds_only_bind.
    + unfold send_message. apply adds_only_bind; [apply adds_only_socket_attr|].
      intros s. destruct (negb _); [apply adds_only_raise|].
      apply adds_only_try_log; [reflexivity|].
      apply adds_only_bind; [now apply adds_only_semaphore_Wait|].
      intros _. destruct (GetBytes payload);
        [apply adds_only_raise | apply adds_only_send_chunk_async].
    + intros status. apply adds_only_continue_sending.
  - unfold send_message_run, send_message.
    cbv [bind socket_attr get_socket ret raise try_log semaphore_Wait negb emit].
    destruct st as [[[state script]|] sem [canc disc] tr];
      run_step; [|split; reflexivity].
    destruct (WebSocketState_eqb state Open); run_step; [|split; reflexivity].
    destruct canc; cbn [cancellation_requested]; run_step; [split; reflexivity|].
    destruct (0 <? sem); run_step; [|split; reflexivity].
    destruct (GetBytes payload) as [e|buf]; run_step; [split; reflexivity|].
    match goal with
    | |- context [send_chunk_async ?d ?s1] =>
        pose proof (send_chunk_async_keeps d s1) as [H1 H2];
        destruct (send_chunk_async d s1) as [[status|e| |] st2]
    end; cbn [snd socket manager option_map State] in *; try (split; assumption).
    destruct (continue_sending_keeps (send_fuel status) status st2) as [H3 H4].
    split; congruence.
Qed.

Section ListenCalls.

Context {R : Runtime}.

Lemma adds_only_dispose : adds_only pump_call dispose.
Proof.
  unfold dispose.
  apply adds_only_bind; [intros st; exists [EvTriggerDisconnect]; split; reflexivity|].
  intros _. apply adds_only_bind; [intros st; exists [EvCancel]; split; reflexivity|].
  intros _. apply adds_only_bind; [apply adds_only_get_socket|].
  intros [s|]; [|apply adds_only_ret].
  apply adds_only_bind; [now apply adds_only_emit | intros _; apply adds_only_set_socket].
Qed.

Lemma adds_only_receive_chunk_async (task_result : option Task) (context : Context) :
  adds_only pump_call (receive_chunk_async task_result context).
Proof.
  unfold receive_chunk_async. apply adds_only_try_log; [reflexivity|].
  apply adds_only_bind.
  - destruct task_result as [task|]; [|apply adds_only_ret].
    apply adds_only_bind.
    { destruct task; [apply adds_only_ret | apply adds_only_raise]. }
    intros result. apply adds_only_bind.
    { destruct (negb _); [now apply adds_only_semaphore_Wait | apply adds_only_ret]. }
    intros _.
    assert (Hdata : adds_only pump_call
              (if EndOfMessage result
               then semaphore_Release;;; emit EvMreSet;;;
                    ret (ReceiveCompleted
                           (mkContext
                              (content (mkContext (content context ++ [GetString (received result)])
                                          (mre context))) true))
               else ret (ReceiveScheduled
                           (mkContext (content context ++ [GetString (received result)])
                              (mre context))))).
    { destruct (EndOfMessage result); [|apply adds_only_ret].
      apply adds_only_bind; [now apply adds_only_semaphore_Release|].
      intros _. apply adds_only_bind; [now apply adds_only_emit|].
      intros _. apply adds_only_ret. }
    destruct (MessageType result); try exact Hdata.
    apply adds_only_bind; [|intros _; apply adds_only_ret].
    unfold send_close. apply adds_only_bind; [apply adds_only_get_socket|].
    intros [s|]; [|apply adds_only_ret].
    apply adds_only_bind; [now apply adds_only_emit | intros _; apply adds_only_dispose].
  - intros [c|c|]; try apply adds_only_ret.
    apply adds_only_bind; [|intros _; apply adds_only_ret].
    unfold socket_ReceiveAsync.
    apply adds_only_bind; [apply adds_only_socket_attr | intros _; now apply adds_only_emit].
Qed.

Lemma adds_only_pump (inbox : list Task) :
  forall context, adds_only pump_call (pump inbox context).
Proof.
  induction inbox as [|task inbox IH]; intros context; cbn [pump];
    [apply adds_only_ret|].
  apply adds_only_bind; [apply adds_only_receive_chunk_async|].
  intros [c|c|]; [apply IH | apply adds_only_ret | apply adds_only_ret].
Qed.

Lemma adds_only_listening_loop (fuel : nat) :
  forall inbox, adds_only listen_call (listening_loop fuel inbox).
Proof.
  induction fuel as [|fuel IH]; intros inbox; cbn [listening_loop];
    (apply adds_only_bind;
     [unfold socket_is_open; apply adds_only_bind;
      [apply adds_only_get_socket | intros ?; apply adds_only_ret]|]);
    intros [|]; try apply adds_only_ret.
  - intros st. exists []. cbn. now rewrite app_nil_r.
  - apply adds_only_bind.
    { apply (adds_only_weaken pump_call); [exact pump_call_listen_call|].
      apply adds_only_receive_chunk_async. }
    intros status.
    apply adds_only_bind.
    { apply adds_only_on_pool.
      destruct status; [ | apply adds_only_ret | apply adds_only_ret].
      apply (adds_only_weaken pump_call); [exact pump_call_listen_call|].
      apply adds_only_pump. }
    intros pumped. apply adds_only_bind; [apply adds_only_mre_Wait|]. intros _.
    apply adds_only_bind; [|intros _; apply IH].
    unfold dispatch. apply adds_only_bind; [now apply adds_only_emit|].
    intros _. destruct (on_message _); [now apply adds_only_emit | apply adds_only_ret].
Qed.

(** X10: what a receive chain never does.  From any state, for any
    context and any completions (data in any number of chunks, close
    frames, faulted reads), the chain of [receive_chunk_async]
    continuations only takes and releases the lock, issues reads, sets the
    completion signal, answers a close frame with [CloseAsync] and the
    disposal that follows, and logs its own exception: it never writes a
    chunk to the socket and never calls the message handler, and the calls
    made before it are kept as they were. *)
Theorem receive_chain_calls (inbox : list Task) (context : Context) (st : Protocol) :
  exists calls,
    trace (snd (pump inbox context st)) = trace st ++ calls
    /\ forallb pump_call calls = true
    /\ writes (trace (snd (pump inbox context st))) = writes (trace st)
    /\ on_message_calls (trace (snd (pump inbox context st))) = on_message_calls (trace st).
Proof.
  destruct (adds_only_pump inbox context st) as (calls & Ht & Hc).
  exists calls. split; [exact Ht|]. split; [exact Hc|].
  rewrite Ht, writes_app, on_message_calls_app.
  assert (H : writes calls = [] /\ on_message_calls calls = []).
  { clear Ht. induction calls as [|e calls IH]; [split; reflexivity|].
    cbn [forallb] in Hc. apply andb_prop in Hc. destruct Hc as [He Hc].
    destruct (IH Hc) as [IH1 IH2].
    destruct e; cbn in He |- *; try discriminate; auto. }
  destruct H as [-> ->]. now rewrite !app_nil_r.
Qed.

End ListenCalls.

(** * Round trip *)

(** The chunks of a send are its non-final chunks, then its final one. *)
Lemma chunks_split (buf : list byte) (k : nat) :
  forall i : Z,
    exists heads lastc,
      List.length heads = k
      /\ chunks buf k i = map (fun c => (c, false)) heads ++ [(lastc, true)].
Proof.
  induction k as [|k IH]; intros i; cbn [chunks].
  - exists [], (firstn (Z.to_nat (Z.of_nat (List.length buf) - SEND_CHUNK_SIZE * i))
                  (skipn (Z.to_nat (SEND_CHUNK_SIZE * i)) buf)).
    split; reflexivity.
  - destruct (IH (i + 1)) as (heads & lastc & Hlen & Heq).
    exists (firstn (Z.to_nat SEND_CHUNK_SIZE) (skipn (Z.to_nat (SEND_CHUNK_SIZE * i)) buf)
            :: heads), lastc.
    split; [cbn; now rewrite Hlen | now rewrite Heq].
Qed.

Section RoundTrip.

Context {R : Runtime}.

(** X11: from a send to a listening peer.  Whatever the decoder, what a
    complete send of a non-empty payload writes, handed read by read to a
    listening protocol that is open, not cancelled and has a permit for
    every non-final chunk (and room for the final release), arrives whole at
    the level of bytes (the chunks read concatenate to the bytes the
    payload was encoded to) and is dispatched there as exactly one message:
    the texts obtained by decoding each chunk on its own, joined in order.
    (That text is the payload exactly when decoding chunk by chunk agrees
    with decoding the whole buffer; nothing is claimed about a character
    whose bytes fall on both sides of a chunk boundary.) *)
Theorem send_then_listen_round_trip
    (payload : string) (buf : list byte)
    (st : Protocol) (s : Socket) (peer : Protocol) (peer_socket : Socket) :
  GetBytes payload = inr buf ->
  0 < Z.of_nat (List.length buf) ->
  socket st = Some s ->
  State s = Open ->
  cancellation_requested (manager st) = false ->
  0 < semaphore st <= Int32_MaxValue ->
  accepting s = true ->
  socket peer = Some peer_socket ->
  State peer_socket = Open ->
  cancellation_requested (manager peer) = false ->
  ceil_div (Z.of_nat (List.length buf)) SEND_CHUNK_SIZE - 1 <= semaphore peer ->
  semaphore peer - (ceil_div (Z.of_nat (List.length buf)) SEND_CHUNK_SIZE - 1)
  < Int32_MaxValue ->
  let sent := writes (since (trace st) (trace (snd (send_message_run payload st)))) in
  exists peer',
    fst (send_message_run payload st) = Return tt
    /\ List.concat (map fst sent) = buf
    /\ start_listening (frames_of_writes sent) peer = (Block, peer')
    /\ on_message_calls (trace peer')
       = on_message_calls (trace peer)
         ++ [String.concat "" (map (fun w => GetString (fst w)) sent)].
Proof.
  intros Hbuf HL Hs Hopen Hc Hsem Hacc Hps Hpopen Hpc Hpermits Hpmax sent.
  destruct (ceil_div_bounds _ HL) as (Hn & Hbounds & _).
  set (n := ceil_div (Z.of_nat (List.length buf)) SEND_CHUNK_SIZE) in *.
  set (k := (Z.to_nat n - 1)%nat).
  set (st1 := mkProtocol (socket st) (semaphore st - 1) (manager st) (trace st ++ [EvWait])).
  destruct (send_message_run_started payload st s buf Hs Hopen Hc (proj1 Hsem) Hbuf)
    as (logs & Hrun & Hlogs).
  fold n st1 in Hrun.
  assert (Hsem1 : semaphore st1 < Int32_MaxValue) by (subst st1; cbn [semaphore]; lia).
  assert (Hk : n - 1 = 0 + Z.of_nat k) by (subst k; lia).
  assert (Hfuel : (k < S (S (List.length buf)))%nat).
  { subst k. clear - Hbounds Hn. unfold SEND_CHUNK_SIZE in *. lia. }
  destruct (continue_sending_chunks buf n k (S (S (List.length buf))) 0 st1 s
              Hs Hacc Hsem1 ltac:(lia) Hk (proj1 Hbounds) Hfuel)
    as (st2 & Hchain & Htrace & _).
  rewrite Hchain in Hrun. cbn [fst snd] in Hrun.
  assert (Hsent : sent = chunks buf k 0).
  { subst sent. rewrite Hrun. cbn [snd trace]. rewrite Htrace. subst st1. cbn [trace].
    rewrite <- !app_assoc, since_app.
    cbn [app writes]. rewrite !writes_app, writes_write_events.
    destruct Hlogs as [-> | ->]; cbn [writes app]; now rewrite app_nil_r. }
  destruct (chunks_split buf k 0) as (heads & lastc & Hlen & Hsplit).
  destruct (chunks_shape buf k 0 ltac:(lia)) as (_ & _ & Hconcat).
  { subst k. unfold SEND_CHUNK_SIZE in *. lia. }
  set (parts := map (fun c => mkResult c false Text) heads).
  assert (Hframes : frames_of_writes sent
                    = map RanToCompletion parts ++ [RanToCompletion (mkResult lastc true Text)]).
  { rewrite Hsent, Hsplit. unfold frames_of_writes, parts, text_frame.
    rewrite map_app, !map_map. reflexivity. }
  assert (Hparts : forallb (data_result false) parts = true).
  { subst parts. clear. induction heads as [|c heads IH]; auto. }
  assert (Hplen : List.length parts = k) by (subst parts; now rewrite length_map).
  destruct (listening_reassembles parts (mkResult lastc true Text) peer peer_socket
              Hparts eq_refl Hps Hpopen Hpc)
    as (peer' & Hlisten & Hcalls & _).
  { rewrite Hplen. subst k. lia. }
  { rewrite Hplen. subst k. lia. }
  exists peer'. split; [now rewrite Hrun|].
  split; [rewrite Hsent; exact Hconcat|].
  split; [now rewrite Hframes|].
  rewrite Hcalls. do 3 f_equal.
  rewrite Hsent, Hsplit. unfold decoded, parts.
  rewrite !map_app, !map_map. reflexivity.
Qed.

End RoundTrip.

Lemma send_then_listen_round_trip_witness :
  let payload := string_of_list_byte (repeat x61 1500) in
  let sent := writes (trace (snd (@send_message_run ascii_runtime payload
                                    (new_protocol open_socket)))) in
  exists peer',
    List.concat (map fst sent) = repeat x61 1500
    /\ @start_listening ascii_runtime (frames_of_writes sent) (new_protocol open_socket)
       = (Block, peer')
    /\ on_message_calls (trace peer')
       = [String.concat "" (map (fun w => @GetString ascii_runtime (fst w)) sent)].
Proof.
  intros payload sent.
  assert (Hbuf : @GetBytes ascii_runtime payload = inr (repeat x61 1500)).
  { cbn [GetBytes ascii_runtime]. subst payload.
    now rewrite list_byte_of_string_of_list_byte. }
  assert (HL : 0 < Z.of_nat (List.length (repeat x61 1500)))
    by (rewrite repeat_length; lia).
  assert (Hsem : 0 < 1 <= Int32_MaxValue) by (unfold Int32_MaxValue; lia).
  assert (Hpermits :
    ceil_div (Z.of_nat (List.length (repeat x61 1500))) SEND_CHUNK_SIZE - 1 <= 1)
    by (rewrite repeat_length; vm_compute; discriminate).
  assert (Hmax :
    1 - (ceil_div (Z.of_nat (List.length (repeat x61 1500))) SEND_CHUNK_SIZE - 1)
    < Int32_MaxValue)
    by (rewrite repeat_length; vm_compute; reflexivity).
  destruct (@send_then_listen_round_trip ascii_runtime
              payload (repeat x61 1500)
              (new_protocol open_socket) open_socket
              (new_protocol open_socket) open_socket
              Hbuf HL eq_refl eq_refl eq_refl Hsem eq_refl
              eq_refl eq_refl eq_refl Hpermits Hmax)
    as (peer' & _ & Hbytes & Hlisten & Hcalls).
  exists peer'. split; [exact Hbytes|]. split; [exact Hlisten | exact Hcalls].
Defined.

(** * A cancelled token, a lock that is held *)

Lemma pump_call_no_dispatch (calls : list event) :
  forallb pump_call calls = true -> on_message_calls calls = [].
Proof.
  induction calls as [|e calls IH]; auto.
  cbn [forallb]. intros H. apply andb_prop in H. destruct H as [He Hc].
  destruct e; cbn in He |- *; try discriminate; auto.
Qed.

Section Cancelled.

Context {R : Runtime}.

(** A token once cancelled stays cancelled through a receive step. *)
Lemma receive_chunk_async_keeps_cancelled
    (task_result : option Task) (context : Context) (st : Protocol) :
  cancellation_requested (manager st) = true ->
  cancellation_requested (manager (snd (receive_chunk_async task_result context st))) = true.
Proof.
  destruct st as [sock sem [canc disc] tr]. cbn [manager cancellation_requested].
  intros ->.
  destruct task_result as [[[data [|] [| |]]|]|], sock as [s|];
    cbv [receive_chunk_async try_log bind task_Result semaphore_Wait semaphore_Release
         send_close dispose trigger_disconnect token_source_Cancel set_socket
         socket_ReceiveAsync socket_attr get_socket emit ret raise negb
         EndOfMessage MessageType received socket semaphore manager trace
         cancellation_requested disconnect_event fst snd];
    repeat break_match; reflexivity.
Qed.

Lemma pump_keeps_cancelled (inbox : list Task) :
  forall (context : Context) (st : Protocol),
    cancellation_requested (manager st) = true ->
    cancellation_requested (manager (snd (pump inbox context st))) = true.
Proof.
  induction inbox as [|task inbox IH]; intros context st Hc; cbn [pump]; [exact Hc|].
  unfold bind.
  pose proof (receive_chunk_async_keeps_cancelled (Some task) context st Hc) as Hstep.
  destruct (receive_chunk_async (Some task) context st) as [[[c|c|]|e| |] st1];
    cbn [snd] in *; auto.
Qed.

(** X12: listening with a cancelled token.  On an open socket whose token is
    already cancelled, [start_listening] ends with
    [OperationCanceledException] whatever the inbox holds: the wait for the
    completion signal checks the token first, so not even a message that
    arrived whole is dispatched, and the handler is never called. *)
Theorem start_listening_cancelled (inbox : list Task) (st : Protocol) (s : Socket) :
  socket st = Some s ->
  State s = Open ->
  cancellation_requested (manager st) = true ->
  fst (start_listening inbox st) = Raise OperationCanceledException
  /\ on_message_calls (trace (snd (start_listening inbox st)))
     = on_message_calls (trace st).
Proof.
  intros Hs Hopen Hc.
  assert (Hrun : exists st',
            start_listening inbox st = (Raise OperationCanceledException, st')
            /\ on_message_calls (trace st') = on_message_calls (trace st)).
  { unfold start_listening, try_log. unfold bind at 1.
    assert (Hattr : socket_attr st = (Return s, st)).
    { cbv [socket_attr bind get_socket ret]. now rewrite Hs. }
    rewrite Hattr. cbn [listening_loop]. unfold bind at 1.
    rewrite (socket_is_open_true st s Hs Hopen).
    unfold bind at 1. rewrite (receive_chunk_async_first _ st s Hs).
    unfold bind at 1. unfold on_pool.
    set (st1 := mkProtocol (socket st) (semaphore st) (manager st)
                  (trace st ++ [EvReceiveAsync])).
    pose proof (pump_keeps_cancelled inbox (mkContext [] false) st1 Hc) as Hkept.
    pose proof (pump_total inbox (mkContext [] false) st1) as Htotal.
    destruct (adds_only_pump inbox (mkContext [] false) st1) as (calls & Htrace & Hcalls).
    apply pump_call_no_dispatch in Hcalls.
    destruct (pump inbox (mkContext [] false) st1) as [[pumped|e| |] st2];
      cbn [fst snd] in *; try contradiction;
      unfold bind at 1; unfold mre_Wait; rewrite Hkept;
      cbv [bind emit raise]; eexists; (split; [reflexivity|]);
      cbn [trace]; rewrite Htrace; subst st1; cbn [trace];
      rewrite !on_message_calls_app, Hcalls; cbn; now rewrite !app_nil_r. }
  destruct Hrun as (st' & -> & Hcalls). split; [reflexivity | exact Hcalls].
Qed.

(** X13: sending with a cancelled token.  On an open socket whose token is
    already cancelled, [send_message] ends in [Wait] with
    [OperationCanceledException], logged once: the lock is not taken, the
    payload is not even encoded, and nothing is written. *)
Theorem send_message_cancelled (payload : string) (st : Protocol) (s : Socket) :
  socket st = Some s ->
  State s = Open ->
  cancellation_requested (manager st) = true ->
  send_message_run payload st
  = (Raise OperationCanceledException,
     mkProtocol (socket st) (semaphore st) (manager st)
       (trace st ++ [EvLogException LogSendMessage])).
Proof.
  intros Hs Hopen Hc.
  destruct st as [sock sem man tr]. cbn [socket semaphore manager trace] in *. subst sock.
  unfold send_message_run, send_message.
  cbv [bind socket_attr get_socket ret raise try_log semaphore_Wait negb emit].
  run_step. rewrite Hopen. cbn [WebSocketState_eqb]. run_step. rewrite Hc. reflexivity.
Qed.

(** X14: sending while the lock is held.  On an open socket, with the token
    not cancelled and no permit left, [send_message] waits for the lock
    having done nothing: no byte is encoded or written and the protocol is
    exactly as it was. *)
Theorem send_message_waits_for_lock (payload : string) (st : Protocol) (s : Socket) :
  socket st = Some s ->
  State s = Open ->
  cancellation_requested (manager st) = false ->
  semaphore st <= 0 ->
  send_message_run payload st = (Block, st).
Proof.
  intros Hs Hopen Hc Hsem.
  destruct st as [sock sem man tr]. cbn [socket semaphore manager trace] in *. subst sock.
  unfold send_message_run, send_message.
  cbv [bind socket_attr get_socket ret raise try_log semaphore_Wait negb emit].
  run_step. rewrite Hopen. cbn [WebSocketState_eqb]. run_step. rewrite Hc.
  replace (0 <? sem) with false by (symmetry; apply Z.ltb_ge; lia).
  reflexivity.
Qed.

End Cancelled.

Lemma start_listening_cancelled_witness :
  fst (@start_listening ascii_runtime [text_frame (list_byte_of_string "ab") true]
         (mkProtocol (Some open_socket) 1 (mkManager true false) []))
  = Raise OperationCanceledException.
Proof.
  exact (proj1 (@start_listening_cancelled ascii_runtime
                  [text_frame (list_byte_of_string "ab") true]
                  (mkProtocol (Some open_socket) 1 (mkManager true false) [])
                  open_socket eq_refl eq_refl eq_refl)).
Defined.

Lemma send_message_cancelled_witness :
  fst (@send_message_run ascii_runtime "abc"
         (mkProtocol (Some open_socket) 1 (mkManager true false) []))
  = Raise OperationCanceledException.
Proof.
  exact (f_equal fst
           (@send_message_cancelled ascii_runtime "abc"
              (mkProtocol (Some open_socket) 1 (mkManager true false) [])
              open_socket eq_refl eq_refl eq_refl)).
Defined.

Lemma send_message_waits_for_lock_witness :
  @send_message_run ascii_runtime "abc"
    (mkProtocol (Some open_socket) 0 (mkManager false false) [EvWait])
  = (Block, mkProtocol (Some open_socket) 0 (mkManager false false) [EvWait]).
Proof.
  assert (H : 0 <= 0) by lia.
  exact (@send_message_waits_for_lock ascii_runtime "abc"
           (mkProtocol (Some open_socket) 0 (mkManager false false) [EvWait])
           open_socket eq_refl eq_refl eq_refl H).
Defined.

(** * Handler exceptions: the loop goes on *)

Section HandlerException.

Context {R : Runtime}.

(** The dispatch of a message on which the handler raises: the call, then
    the log line, and a normal return. *)
Lemma dispatch_raising (content : list string) (st : Protocol) (e : exn) :
  on_message (String.concat "" content) = Some e ->
  dispatch content st
  = (Return tt,
     mkProtocol (socket st) (semaphore st) (manager st)
       (trace st ++ [EvOnMessage (String.concat "" content); EvLogException LogHandler])).
Proof.
  intros He. unfold dispatch. rewrite He.
  cbv [bind emit ret]. run_step. now rewrite <- app_assoc.
Qed.

(** Two messages in a row, the handler raising on the first: both turns of
    the loop are taken, and the loop goes on with what follows. *)
Lemma listening_loop_after_handler_exception
    (partsN partsN1 : list WebSocketReceiveResult) (lastN lastN1 : WebSocketReceiveResult)
    (rest : list Task) (fuel : nat) (st : Protocol) (s : Socket) (e : exn) :
  forallb (data_result false) partsN = true ->
  data_result true lastN = true ->
  forallb (data_result false) partsN1 = true ->
  data_result true lastN1 = true ->
  socket st = Some s ->
  State s = Open ->
  cancellation_requested (manager st) = false ->
  Z.of_nat (List.length partsN) <= semaphore st ->
  semaphore st - Z.of_nat (List.length partsN) < Int32_MaxValue ->
  Z.of_nat (List.length partsN1) <= semaphore st - Z.of_nat (List.length partsN) + 1 ->
  semaphore st - Z.of_nat (List.length partsN) + 1 - Z.of_nat (List.length partsN1)
  < Int32_MaxValue ->
  on_message (String.concat "" (decoded (partsN ++ [lastN]))) = Some e ->
  exists logs st5,
    listening_loop (S (S fuel))
      (map RanToCompletion partsN ++ RanToCompletion lastN
       :: map RanToCompletion partsN1 ++ RanToCompletion lastN1 :: rest) st
    = listening_loop fuel rest st5
    /\ trace st5
       = trace st ++ [EvReceiveAsync] ++ nonfinal_events partsN
         ++ [EvRelease; EvMreSet;
             EvOnMessage (String.concat "" (decoded (partsN ++ [lastN])));
             EvLogException LogHandler; EvReceiveAsync]
         ++ nonfinal_events partsN1
         ++ [EvRelease; EvMreSet;
             EvOnMessage (String.concat "" (decoded (partsN1 ++ [lastN1])))]
         ++ logs.
Proof.
  intros HpN HlN HpN1 HlN1 Hs Hopen Hc Hsem Hmax Hsem1 Hmax1 He.
  set (rest1 := map RanToCompletion partsN1 ++ RanToCompletion lastN1 :: rest).
  pose proof (pump_reassembles partsN lastN rest1 (mkContext [] false)
                (mkProtocol (socket st) (semaphore st) (manager st)
                   (trace st ++ [EvReceiveAsync])) s
                HpN HlN Hs Hc Hsem Hmax) as Hpump.
  cbn [socket semaphore manager trace content app] in Hpump.
  erewrite listening_loop_turn;
    [ | exact Hs | exact Hopen | exact Hpump | reflexivity | exact Hc ].
  unfold bind at 1. cbn [content].
  rewrite (dispatch_raising _ _ e He). cbn [socket semaphore manager trace].
  set (st3 := mkProtocol (socket st) (semaphore st - Z.of_nat (List.length partsN) + 1)
                (manager st)
                (((trace st ++ [EvReceiveAsync]) ++ nonfinal_events partsN
                  ++ [EvRelease; EvMreSet])
                 ++ [EvOnMessage (String.concat "" (decoded (partsN ++ [lastN])));
                     EvLogException LogHandler])).
  pose proof (pump_reassembles partsN1 lastN1 rest (mkContext [] false)
                (mkProtocol (socket st3) (semaphore st3) (manager st3)
                   (trace st3 ++ [EvReceiveAsync])) s
                HpN1 HlN1 Hs Hc Hsem1 Hmax1) as Hpump1.
  cbn [content app] in Hpump1.
  subst rest1.
  erewrite listening_loop_turn;
    [ | exact Hs | exact Hopen | exact Hpump1 | reflexivity | exact Hc ].
  unfold bind at 1. cbn [content].
  destruct (dispatch_effect (decoded (partsN1 ++ [lastN1]))
              (mkProtocol (socket st3)
                 (semaphore st3 - Z.of_nat (List.length partsN1) + 1) (manager st3)
                 ((trace st3 ++ [EvReceiveAsync]) ++ nonfinal_events partsN1
                  ++ [EvRelease; EvMreSet])))
    as (logs & Hdispatch & _).
  cbn [socket semaphore manager trace] in Hdispatch |- *. rewrite Hdispatch.
  exists logs. eexists. split; [reflexivity|].
  subst st3. cbn [trace]. rewrite <- !app_assoc. reflexivity.
Qed.

End HandlerException.


